(** * Discography controller: a shallow embedding of
    [src/discographyController.ts] and the properties of its fetch pipeline.

    The controller is a TypeScript module with global mutable state (phase,
    active artist, two caches), asynchronous entry points that suspend at
    every [await], and helper functions that walk loosely typed JSON.

    Layout of the development:
    - [Js]: the fragment of JavaScript values and operators the module uses
      (truthiness, [||], optional chaining, [ToString], string helpers);
    - [Releases]: [normalizeReleaseItem], the insertion-ordered release map
      and [collectReleasesDeep];
    - section [Host]: the comparator and [Array.prototype.sort], the module
      state and its phase transitions, the asynchronous functions as
      resumable tasks driven by a scheduler, then the properties;
    - concrete runs, after the section, on a host that has [CosmosAsync.get]
      and collates by code units. *)

From Stdlib Require Import ZArith String Ascii List Bool Lia.
From Stdlib Require Import Permutation Sorted.
From Stdlib Require DecimalString OrderedTypeEx.
From stdpp Require Import base option gmap strings.
Import ListNotations.

Set Warnings "-register-all".

Local Open Scope string_scope.
Local Open Scope Z_scope.
Local Open Scope list_scope.

(** ** Errors

    A JavaScript expression either yields a value or throws.  The thrown
    value itself is never inspected by the controller's own [catch] blocks
    when the throw comes from its own code (they only log it), so a thrown
    [TypeError] is represented by a single constructor. *)

Inductive result (A : Type) : Type :=
| Ok (a : A)
| Throw.
Arguments Ok {A} a.
Arguments Throw {A}.

#[global] Instance result_ret : MRet result := fun _ a => Ok a.
#[global] Instance result_bind : MBind result := fun _ _ k r =>
  match r with
  | Ok a => k a
  | Throw => Throw
  end.

(** ** JavaScript values *)

Module Js.

(** Values as [JSON.parse] produces them, plus [undefined] (the result of
    reading an absent property).  Numbers are the integers of magnitude
    below 2^53, which JavaScript holds exactly and prints in plain decimal
    (beyond, it prints the shortest digits that read back, and from 1e21 an
    exponent); numbers with a fraction are not modelled.  Strings are ASCII
    text; an object is the list of
    its own properties in the order [Object.values] enumerates them, its
    keys pairwise distinct. *)
Inductive json : Type :=
| JUndefined
| JNull
| JBool (b : bool)
| JNum (n : Z)
| JStr (s : string)
| JArr (items : list json)
| JObj (fields : list (string * json)).

(** [!!v] *)
Definition truthy (v : json) : bool :=
  match v with
  | JUndefined | JNull => false
  | JBool b => b
  | JNum n => negb (n =? 0)
  | JStr s => negb (String.eqb s "")
  | JArr _ | JObj _ => true
  end.

(** [a || b] *)
Definition or_else (a b : json) : json := if truthy a then a else b.
Infix "|||" := or_else (at level 50, left associativity).

Fixpoint assoc (k : string) (fields : list (string * json)) : json :=
  match fields with
  | [] => JUndefined
  | (k', v) :: rest => if String.eqb k k' then v else assoc k rest
  end.

(** [v?.k], and [v.k] where [v] is known not to be [null] or [undefined].
    Only own properties of objects matter: of the names the controller
    reads, the one a prototype defines ([link], a method of strings) is only
    read through to a property it does not have. *)
Definition get (v : json) (k : string) : json :=
  match v with
  | JObj fields => assoc k fields
  | _ => JUndefined
  end.

(** [v?.[0]] *)
Definition get0 (v : json) : json :=
  match v with
  | JArr (x :: _) => x
  | JStr (String c _) => JStr (String c "")
  | JObj fields => assoc "0" fields
  | _ => JUndefined
  end.

(** [typeof v === "string"] *)
Definition is_string (v : json) : bool :=
  match v with JStr _ => true | _ => false end.

(** [typeof v === "object"] ([null] included, as in JavaScript) *)
Definition typeof_object (v : json) : bool :=
  match v with JNull | JArr _ | JObj _ => true | _ => false end.

(** [Array.isArray(v)] *)
Definition isArray (v : json) : bool :=
  match v with JArr _ => true | _ => false end.

(** *** Strings *)

(** [hay.includes(needle)] *)
Fixpoint includes (needle hay : string) : bool :=
  String.prefix needle hay ||
  match hay with
  | EmptyString => false
  | String _ rest => includes needle rest
  end.

(** [s.split(":").pop()]: the text after the last colon. *)
Fixpoint split_pop_aux (s acc : string) : string :=
  match s with
  | EmptyString => acc
  | String c rest =>
      if Ascii.eqb c ":"%char then split_pop_aux rest ""
      else split_pop_aux rest (acc +:+ String c "")
  end.
Definition split_pop (s : string) : string := split_pop_aux s "".

Definition lower_char (c : ascii) : ascii :=
  let n := nat_of_ascii c in
  if (65 <=? n)%nat && (n <=? 90)%nat then ascii_of_nat (n + 32) else c.

(** [s.toLowerCase()] on ASCII text. *)
Fixpoint toLowerCase (s : string) : string :=
  match s with
  | EmptyString => EmptyString
  | String c rest => String (lower_char c) (toLowerCase rest)
  end.

Definition string_of_Z (n : Z) : string :=
  DecimalString.NilZero.string_of_int (Z.to_int n).

Definition has_own (k : string) (fields : list (string * json)) : bool :=
  existsb (fun kv => String.eqb k (fst kv)) fields.

(** [ToString(v)], also what [v.toString()] returns on the values that have
    that method.  A parsed object inherits [Object.prototype.toString]
    unless it has an own property of that name, whose value is then not
    callable: the method call, and the conversion to a primitive, throw a
    [TypeError].  An array joins its elements with commas, [null] and
    [undefined] elements giving the empty string. *)
Fixpoint to_string (v : json) : result string :=
  match v with
  | JUndefined => Ok "undefined"
  | JNull => Ok "null"
  | JBool true => Ok "true"
  | JBool false => Ok "false"
  | JNum n => Ok (string_of_Z n)
  | JStr s => Ok s
  | JObj fields =>
      if has_own "toString" fields then Throw else Ok "[object Object]"
  | JArr items =>
      let elem (x : json) : result string :=
        match x with
        | JUndefined | JNull => Ok ""
        | _ => to_string x
        end in
      (fix join (l : list json) : result string :=
         match l with
         | [] => Ok ""
         | [x] => elem x
         | x :: rest =>
             s ← elem x;
             t ← join rest;
             Ok (s +:+ "," +:+ t)
         end) items
  end.

End Js.
Import Js.

(** ** Releases: normalisation and deep collection *)

Module Releases.

(** [interface DiscographyRelease].  The interface declares every field a
    string; at run time a field holds whatever the payload held, so the
    fields are JavaScript values ([album_type] is always a string). *)
Record DiscographyRelease : Type := mkRelease {
  id : json;
  name : json;
  release_date : json;
  album_type : json;
  uri : json;
  imageUrl : json
}.

Definition album_types : list string :=
  ["album"; "single"; "compilation"; "appears_on"; "ep"].

(** [list.includes(s)] on a list of strings. *)
Definition list_includes (l : list string) (s : string) : bool :=
  existsb (String.eqb s) l.

(** The first part of [normalizeReleaseItem] (lines 123-136): the resolved
    uri, identifier and name. *)
Definition resolved_uri (item : json) : json :=
  get item "uri" ||| get (get item "link") "uri" ||| get (get item "album") "uri"
  ||| JStr "".

Definition id_from_uri (uri : json) : json :=
  match uri with
  | JStr s => if includes ":" s then JStr (split_pop s) else JStr ""
  | _ => JStr ""
  end.

Definition resolved_id (item : json) : json :=
  get item "id" ||| id_from_uri (resolved_uri item) ||| JStr "".

Definition resolved_name (item : json) : json :=
  let name := get item "name" ||| get item "title" ||| get item "displayName"
              ||| get item "release_name" ||| JStr "" in
  if negb (truthy name) && typeof_object item then
    if truthy (get (get item "album") "name") then get (get item "album") "name"
    else if truthy (get (get item "metadata") "name") then get (get item "metadata") "name"
    else if truthy (get (get item "content") "name") then get (get item "content") "name"
    else if truthy (get (get item "header") "title") then get (get item "header") "title"
    else if truthy (get (get item "header") "subtitle") then get (get item "header") "subtitle"
    else if truthy (get (get item "headerData") "title") then get (get item "headerData") "title"
    else name
  else name.

(** [albumTypeRaw] (lines 140-142); the [toString] call may throw. *)
Definition album_type_raw (item : json) : result string :=
  s ← to_string (get item "album_type" ||| get item "albumType" ||| get item "type"
                 ||| get item "release_type" ||| JStr "");
  Ok (toLowerCase s).

(** [isAlbumUri] (line 144) *)
Definition is_album_uri (uri : json) : bool :=
  match uri with
  | JStr s => includes "album" s
  | _ => false
  end.

Definition normalizeReleaseItem (item : json) : result (option DiscographyRelease) :=
  if negb (truthy item) then Ok None else
  let uri := resolved_uri item in
  let id := resolved_id item in
  let name := resolved_name item in
  if negb (truthy id) || negb (truthy name) then Ok None else
  albumTypeRaw ← album_type_raw item;
  let isAlbumType := list_includes album_types albumTypeRaw in
  let isAlbumUri := is_album_uri uri in
  if negb isAlbumType && negb isAlbumUri then Ok None else
  let releaseDate := get item "release_date" ||| get item "releaseDate"
                     ||| get item "release_date_iso" ||| get item "date" ||| JStr "" in
  let images := get item "images" ||| get (get item "coverArt") "sources"
                ||| get (get item "image") "sources" ||| JArr [] in
  let imageUrl := get (get0 images) "url" ||| get (get0 images) "uri"
                  ||| get (get item "image") "url" ||| JStr "" in
  uri' ← (if truthy uri then Ok uri
          else if truthy id then s ← to_string id; Ok (JStr ("spotify:album:" +:+ s))
          else Ok (JStr ""));
  Ok (Some {| id := id; name := name; release_date := releaseDate;
              album_type := JStr albumTypeRaw; uri := uri'; imageUrl := imageUrl |}).

(** *** The release map

    [Map<string, DiscographyRelease>]: entries in insertion order, which is
    the order [map.values()] yields them in.  Keys are compared as [Map]
    compares them (SameValueZero): primitives by value, arrays and objects by
    reference, and two nodes of parsed JSON are never the same reference. *)
Definition same_value_zero (a b : json) : bool :=
  match a, b with
  | JUndefined, JUndefined | JNull, JNull => true
  | JBool x, JBool y => Bool.eqb x y
  | JNum x, JNum y => x =? y
  | JStr x, JStr y => String.eqb x y
  | _, _ => false
  end.

Definition ReleasesMap : Type := list (json * DiscographyRelease).

Definition has (m : ReleasesMap) (k : json) : bool :=
  existsb (fun e => same_value_zero (fst e) k) m.

Fixpoint set (m : ReleasesMap) (k : json) (v : DiscographyRelease) : ReleasesMap :=
  match m with
  | [] => [(k, v)]
  | (k', v') :: rest =>
      if same_value_zero k' k then (k', v) :: rest else (k', v') :: set rest k v
  end.


Definition values (m : ReleasesMap) : list DiscographyRelease := map snd m.
Definition size (m : ReleasesMap) : nat := length m.

(** The idiom of lines 176-179 and 211-214:
    [if (release && !releasesMap.has(release.id)) releasesMap.set(release.id, release)]. *)
Definition add_if_absent (m : ReleasesMap) (release : option DiscographyRelease)
  : ReleasesMap :=
  match release with
  | Some r => if negb (has m (id r)) then set m (id r) r else m
  | None => m
  end.

(** *** Deep collection

    [collectReleasesDeep] only needs to tell whether a value is falsy, an
    array or an object, to enumerate elements and property values, and to
    normalise.  Stating it over that interface covers parsed JSON (a tree)
    as well as object graphs with sharing or cycles. *)
Class ObjectGraph (V : Type) : Type := {
  g_truthy : V -> bool;
  g_isArray : V -> bool;
  g_typeof_object : V -> bool;
  g_elements : V -> list V;
  g_values : V -> list V;
  g_normalize : V -> result (option DiscographyRelease)
}.

#[global] Instance json_graph : ObjectGraph json := {|
  g_truthy := truthy;
  g_isArray := isArray;
  g_typeof_object := typeof_object;
  g_elements := fun v => match v with JArr items => items | _ => [] end;
  g_values := fun v => match v with JObj fields => map snd fields | _ => [] end;
  g_normalize := normalizeReleaseItem
|}.

Definition depth_ceiling : nat := 10.

Section Collect.
Context {V : Type} `{ObjectGraph V}.

(** [items.forEach((x) => visit(x, releasesMap))] for a callback that
    mutates the map and may throw. *)
Fixpoint for_each (visit : V -> ReleasesMap -> result ReleasesMap)
    (items : list V) (m : ReleasesMap) : result ReleasesMap :=
  match items with
  | [] => Ok m
  | x :: rest => m' ← visit x m; for_each visit rest m'
  end.

(** The body of [collectReleasesDeep] (lines 168-181), with [self] for
    the recursive call.  The map is mutated in place in the source; here
    it is threaded. *)
Definition collect_body (self : V -> ReleasesMap -> nat -> result ReleasesMap)
    (value : V) (releasesMap : ReleasesMap) (depth : nat) : result ReleasesMap :=
  if negb (g_truthy value) || (depth_ceiling <? depth)%nat then Ok releasesMap
  else if g_isArray value then
    for_each (fun item m => self item m (depth + 1)%nat) (g_elements value) releasesMap
  else if g_typeof_object value then
    release ← g_normalize value;
    for_each (fun child m => self child m (depth + 1)%nat)
             (g_values value) (add_if_absent releasesMap release)
  else Ok releasesMap.

(** The function with at most [budget] nested calls. *)
Fixpoint collect_within (budget : nat)
  : V -> ReleasesMap -> nat -> result ReleasesMap :=
  match budget with
  | O => fun _ releasesMap _ => Ok releasesMap
  | S budget' => collect_body (collect_within budget')
  end.

(** The depth guard bounds the recursion: a call at [depth] nests at most
    [depth_ceiling + 1 - depth] calls before the guard returns, whatever
    the shape of the value ([collectReleasesDeep_eq] below). *)
Definition collectReleasesDeep (value : V) (releasesMap : ReleasesMap)
    (depth : nat) : result ReleasesMap :=
  collect_within (depth_ceiling + 1 - depth) value releasesMap depth.
End Collect.

End Releases.
Import Releases.

(** An object graph with a cycle: the object
    [o = {id: "1", name: "X", type: "album", self: o}].  [Self] is [o];
    its other property values are plain JSON.  [normalizeReleaseItem] never
    reads the property [self], so normalising [o] is normalising the object
    without it. *)
Inductive CyclicNode : Type :=
| Self
| Plain (v : json).

Definition self_fields : list (string * json) :=
  [("id", JStr "1"); ("name", JStr "X"); ("type", JStr "album")].

#[global] Instance cyclic_graph : ObjectGraph CyclicNode := {|
  g_truthy := fun n => match n with Self => true | Plain v => truthy v end;
  g_isArray := fun n => match n with Self => false | Plain v => isArray v end;
  g_typeof_object := fun n => match n with Self => true | Plain v => typeof_object v end;
  g_elements := fun n => match n with Self => [] | Plain v => map Plain (g_elements v) end;
  g_values := fun n =>
    match n with
    | Self => map (fun kv => Plain (snd kv)) self_fields ++ [Self]
    | Plain v => map Plain (g_values v)
    end;
  g_normalize := fun n =>
    match n with
    | Self => normalizeReleaseItem (JObj self_fields)
    | Plain v => normalizeReleaseItem v
    end
|}.

(** [nested k v c]: the value [c] sits [k] levels below [v], reached through
    array elements and property values. *)
Inductive nested : nat -> json -> json -> Prop :=
| nested_here v : nested 0 v v
| nested_element items x k c :
    In x items -> nested k x c -> nested (S k) (JArr items) c
| nested_field fields key x k c :
    In (key, x) fields -> nested k x c -> nested (S k) (JObj fields) c.

(** ** Sample payloads *)

Definition sample_album (i n d : string) : json :=
  JObj [("id", JStr i); ("name", JStr n); ("type", JStr "album");
        ("release_date", JStr d)].

Definition sample_release (i n d : string) : DiscographyRelease :=
  {| id := JStr i; name := JStr n; release_date := JStr d;
     album_type := JStr "album"; uri := JStr ("spotify:album:" +:+ i);
     imageUrl := JStr "" |}.

(** An artist overview with one album. *)
Definition overview_A : json :=
  JObj [("releases", JArr [sample_album "a1" "One" "2020-01-01"])].

(** An artist overview whose two albums carry their date as an object
    [{year: ...}] under [date]. *)
Definition overview_B : json :=
  JObj [("releases",
         JArr [JObj [("id", JStr "b1"); ("name", JStr "B one"); ("type", JStr "album");
                     ("date", JObj [("year", JNum 2019)])];
               JObj [("id", JStr "b2"); ("name", JStr "B two"); ("type", JStr "album");
                     ("date", JObj [("year", JNum 2021)])]])].


(** [v] wrapped in [k] one-element arrays. *)
Fixpoint wrapped (k : nat) (v : json) : json :=
  match k with
  | O => v
  | S k' => JArr [wrapped k' v]
  end.

Definition empty_page : json := JObj [("items", JArr [])].

Definition empty_page_with_next : json :=
  JObj [("items", JArr []); ("next", JStr "https://api.spotify.com/v1/next")].

Definition rate_limit_error : json :=
  JObj [("status", JNum 429); ("message", JStr "Too Many Requests")].

Definition album_detail : json :=
  JObj [("id", JStr "x1"); ("name", JStr "Detail"); ("release_date", JStr "2021-03-04");
        ("album_type", JStr "single")].

(** The three dates of the spec's sort example, in merge order. *)
Definition dated_map : ReleasesMap :=
  [(JStr "r1", sample_release "r1" "First" "2020-01-01");
   (JStr "r2", sample_release "r2" "Second" "2022-06-15");
   (JStr "r3", sample_release "r3" "Third" "")].

(** ** The host

    What the module takes from its environment besides the settlements of
    the promises it awaits: whether [Spicetify?.CosmosAsync?.get] is there,
    and the collation behind [String.prototype.localeCompare], which returns
    a negative number, zero or a positive number. *)
Section Host.

Variable cosmosAvailable : bool.
Variable localeCompare : string -> string -> Z.

(** ** Sorting (lines 379-381) *)

(** The comparator [(a, b) => b.release_date.localeCompare(a.release_date)].
    Only strings have the method; its argument is converted with
    [ToString]. *)
Definition compare_releases (a b : DiscographyRelease) : result Z :=
  match release_date b with
  | JStr sb => sa ← to_string (release_date a); Ok (localeCompare sb sa)
  | _ => Throw
  end.

(** [Array.prototype.sort(comparefn)] is stable; which pairs it compares is
    left to the engine.  The model inserts each element in turn into the
    sorted prefix, calling [comparefn(x, e)] with [x] the element being
    placed: a negative result puts [x] before [e].  For a comparator that
    never throws and is a consistent ordering this is the unique stable
    result; a comparator that throws on every pair throws for any engine as
    soon as the array has two elements.  When only some of the dates are
    strings, whether the sort throws depends on the pairs the engine picks:
    no statement below is made about such lists beyond what holds of every
    engine (the sort throws, or returns a permutation). *)
Section Sort.
Context {A : Type} (comparefn : A -> A -> result Z).

Fixpoint insert_sorted (x : A) (sorted : list A) : result (list A) :=
  match sorted with
  | [] => Ok [x]
  | e :: rest =>
      c ← comparefn x e;
      if c <? 0 then Ok (x :: e :: rest)
      else r ← insert_sorted x rest; Ok (e :: r)
  end.

Fixpoint sort_onto (sorted : list A) (l : list A) : result (list A) :=
  match l with
  | [] => Ok sorted
  | x :: rest => s ← insert_sorted x sorted; sort_onto s rest
  end.

Definition array_sort (l : list A) : result (list A) := sort_onto [] l.
End Sort.

(** Code-unit (lexicographic) comparison of strings, as a number of the sign
    [localeCompare] would return if collation were code-unit order. *)
Definition lex_compare (a b : string) : Z :=
  match String.compare a b with Lt => -1 | Eq => 0 | Gt => 1 end.

(** A collation that compares letters without regard to case, as the first
    level of ICU's does: "a" comes before "B", which code units order the
    other way round. *)
Definition caseless_compare (a b : string) : Z :=
  lex_compare (toLowerCase a) (toLowerCase b).

(** ** Module state *)

Inductive Phase : Type :=
| IDLE | ARTISTVIEW | COOLDOWN | HYDRATING | DONE | ABORTED.

#[global] Instance Phase_eq_dec : EqDecision Phase.
Proof. solve_decision. Defined.

(** What the module does to the outside, in order: the requests it issues,
    the timers it starts and the phase changes it logs. *)
Inductive Effect : Type :=
| CosmosGet (url : string)
| Delay (ms : Z)
| PhaseChange (old new : Phase).

(** The module-level variables (lines 22-32), and the effects so far.
    [lastArtistId] is declared but never read or written, and is left out. *)
Record State : Type := mkState {
  phase : Phase;
  activeArtistId : option string;
  discographyReleaseCache : gmap string (list DiscographyRelease);
  albumCache : gmap string json;
  currentReleases : list DiscographyRelease;
  effects : list Effect
}.

Definition with_phase (p : Phase) (st : State) : State :=
  mkState p (activeArtistId st) (discographyReleaseCache st) (albumCache st)
          (currentReleases st) (effects st).
Definition with_activeArtistId (a : option string) (st : State) : State :=
  mkState (phase st) a (discographyReleaseCache st) (albumCache st)
          (currentReleases st) (effects st).
Definition with_discographyReleaseCache
    (c : gmap string (list DiscographyRelease)) (st : State) : State :=
  mkState (phase st) (activeArtistId st) c (albumCache st)
          (currentReleases st) (effects st).
Definition with_albumCache (c : gmap string json) (st : State) : State :=
  mkState (phase st) (activeArtistId st) (discographyReleaseCache st) c
          (currentReleases st) (effects st).
Definition with_currentReleases (l : list DiscographyRelease) (st : State) : State :=
  mkState (phase st) (activeArtistId st) (discographyReleaseCache st) (albumCache st)
          l (effects st).
Definition emit (e : Effect) (st : State) : State :=
  mkState (phase st) (activeArtistId st) (discographyReleaseCache st) (albumCache st)
          (currentReleases st) (effects st ++ [e]).

Definition initial_state : State :=
  mkState IDLE None ∅ ∅ [] [].

(** *** Phase guard and transitions (lines 38-63) *)

Definition assertPhase (allowed : list Phase) (st : State) : result unit :=
  if bool_decide (phase st ∈ allowed) then Ok tt else Throw.

Definition transitionPhase (newPhase : Phase) (st : State) : State :=
  with_phase newPhase (emit (PhaseChange (phase st) newPhase) st).

Definition abortCurrentWork (st : State) : State :=
  with_activeArtistId None (transitionPhase ABORTED st).

Definition reset (st : State) : State :=
  with_activeArtistId None (with_phase IDLE st).

(** *** [isRateLimitError] (lines 71-75) *)
Definition isRateLimitError (err : json) : result bool :=
  let status := get err "status" ||| get (get err "response") "status"
                ||| get err "statusCode" in
  message ← to_string (get err "message" ||| JStr "");
  Ok (match status with JNum 429 => true | _ => false end
      || includes "429" message
      || includes "rate" (toLowerCase message)).

(** ** The asynchronous functions

    Execution is single-threaded: a call runs until its next [await], and
    other code runs only while it is suspended there.  A call is therefore a
    [Task]: the suspension point it waits at, with the local variables that
    are live there, or its settled promise.  Every function below is one
    synchronous stretch of the source.  [cooldown] and [hydrateAlbumsBatch]
    (lines 238-314) are never called; they are modelled apart, after the
    scheduler. *)

Inductive Settled : Type :=
| Fulfilled (v : json)
| Rejected (e : json).

Inductive Task : Type :=
(* fetchArtistView waits for CosmosAsync.get (line 98) *)
| AwaitArtistViewGet (artistId : string)
(* fetchDiscographyForArtist waits for fetchArtistView, settled with r (line 357) *)
| AwaitArtistView (artistId : string) (r : result json)
(* fetchArtistAlbumsPaged waits for CosmosAsync.get (line 205) *)
| AwaitPageGet (artistId : string) (releasesMap : ReleasesMap) (maxPages page offset : Z)
(* fetchArtistAlbumsPaged waits for delay(5000) (line 223) *)
| AwaitPageDelay (artistId : string) (releasesMap : ReleasesMap) (maxPages page offset : Z)
(* fetchDiscographyForArtist waits for fetchArtistAlbumsPaged, settled with r (line 369) *)
| AwaitPaged (artistId : string) (releasesMap : ReleasesMap) (r : result unit)
(* the promise of fetchDiscographyForArtist is fulfilled *)
| FetchResolved (releases : list DiscographyRelease)
(* hydrateAlbumDetails waits for delay(30000) (line 435) *)
| AwaitHydrateDelay (albumId : string)
(* hydrateAlbumDetails waits for CosmosAsync.get (line 446) *)
| AwaitHydrateGet (albumId : string)
(* the promise of hydrateAlbumDetails is settled *)
| HydrateSettled (r : result (option DiscographyRelease)).

Definition artistview_url (artistId : string) : string :=
  "https://spclient.wg.spotify.com/artistview/v1/artist/" +:+ artistId
  +:+ "?market=from_token&limit=200".

Definition albums_url (artistId : string) (limit offset : Z) : string :=
  "https://api.spotify.com/v1/artists/" +:+ artistId
  +:+ "/albums?include_groups=album,single,compilation,appears_on&limit="
  +:+ string_of_Z limit +:+ "&offset=" +:+ string_of_Z offset.

Definition album_url (albumId : string) : string :=
  "https://api.spotify.com/v1/albums/" +:+ albumId.

(** *** [fetchArtistView] (lines 81-114) *)

Definition fetchArtistView (artistId : string) (st : State) : State * Task :=
  match assertPhase [ARTISTVIEW] st with
  | Throw => (st, AwaitArtistView artistId Throw)
  | Ok _ =>
      if bool_decide (phase st = ABORTED) then (st, AwaitArtistView artistId (Ok JNull))
      else if negb cosmosAvailable then (st, AwaitArtistView artistId (Ok JNull))
      else (emit (CosmosGet (artistview_url artistId)) st, AwaitArtistViewGet artistId)
  end.

Definition fetchArtistView_settled (artistId : string) (s : Settled) (st : State)
  : State * Task :=
  match s with
  | Fulfilled data =>
      if bool_decide (phase st = ABORTED) then (st, AwaitArtistView artistId (Ok JNull))
      else (st, AwaitArtistView artistId (Ok data))
  | Rejected error =>
      match isRateLimitError error with
      | Throw => (st, AwaitArtistView artistId Throw)
      | Ok true => (transitionPhase ABORTED st, AwaitArtistView artistId (Ok JNull))
      | Ok false => (st, AwaitArtistView artistId (Ok JNull))
      end
  end.

(** *** [fetchArtistAlbumsPaged] (lines 188-232) *)

Definition limit : Z := 50.

(** The head of the [while] loop, up to the next [await]. *)
Definition paged_loop (artistId : string) (releasesMap : ReleasesMap)
    (maxPages page offset : Z) (st : State) : State * Task :=
  if page <? maxPages then
    if bool_decide (phase st = ABORTED) then (st, AwaitPaged artistId releasesMap (Ok tt))
    else (emit (CosmosGet (albums_url artistId limit offset)) st,
          AwaitPageGet artistId releasesMap maxPages page offset)
  else (st, AwaitPaged artistId releasesMap (Ok tt)).

Definition fetchArtistAlbumsPaged (artistId : string) (releasesMap : ReleasesMap)
    (maxPages : Z) (st : State) : State * Task :=
  if negb cosmosAvailable then (st, AwaitPaged artistId releasesMap (Ok tt))
  else paged_loop artistId releasesMap maxPages 0 0 st.

(** [items.forEach(...)] of lines 210-215.  The map is mutated in place, so
    when [normalizeReleaseItem] throws the entries added before it stay: the
    result is the map as it then is, and whether the loop ran to its end. *)
Fixpoint add_page_items (items : list json) (releasesMap : ReleasesMap)
  : ReleasesMap * bool :=
  match items with
  | [] => (releasesMap, true)
  | item :: rest =>
      match normalizeReleaseItem item with
      | Ok release => add_page_items rest (add_if_absent releasesMap release)
      | Throw => (releasesMap, false)
      end
  end.

(** [Array.isArray(data?.items) ? data.items : []] *)
Definition page_items (data : json) : list json :=
  match get data "items" with JArr l => l | _ => [] end.

Definition page_settled (artistId : string) (releasesMap : ReleasesMap)
    (maxPages page offset : Z) (s : Settled) (st : State) : State * Task :=
  match s with
  | Fulfilled data =>
      let items := page_items data in
      if (length items =? 0)%nat then (st, AwaitPaged artistId releasesMap (Ok tt))
      else
        let '(releasesMap', completed) := add_page_items items releasesMap in
        (* a TypeError from the callback lands in the catch of line 224, whose
           isRateLimitError only reads the error's message string *)
        if negb completed then (st, AwaitPaged artistId releasesMap' (Ok tt))
        else if negb (truthy (get data "next")) then
          (st, AwaitPaged artistId releasesMap' (Ok tt))
        else
          (emit (Delay 5000) st,
           AwaitPageDelay artistId releasesMap' maxPages (page + 1) (offset + limit))
  | Rejected error =>
      match isRateLimitError error with
      | Throw => (st, AwaitPaged artistId releasesMap Throw)
      | Ok _ => (st, AwaitPaged artistId releasesMap (Ok tt))
      end
  end.

(** *** [fetchDiscographyForArtist] (lines 320-411) *)

(** [finally { if (phase !== "ABORTED") reset(); }], then the promise is
    fulfilled with the value of the [return] that led here. *)
Definition pipeline_finally (ret : list DiscographyRelease) (st : State)
  : State * Task :=
  ((if bool_decide (phase st ≠ ABORTED) then reset st else st), FetchResolved ret).

(** [catch (error) { transitionPhase("ABORTED"); reset(); return currentReleases; }] *)
Definition pipeline_catch (st : State) : State * Task :=
  let st := reset (transitionPhase ABORTED st) in
  pipeline_finally (currentReleases st) st.

Definition fetchDiscographyForArtist (artistId : string) (st : State) : State * Task :=
  let st :=
    match activeArtistId st with
    | Some active =>
        if negb (String.eqb active "") && negb (String.eqb active artistId)
        then abortCurrentWork st else st
    | None => st
    end in
  match discographyReleaseCache st !! artistId with
  | Some cached => (st, FetchResolved cached)
  | None =>
      if bool_decide (activeArtistId st = Some artistId)
         && bool_decide (phase st ≠ IDLE) && bool_decide (phase st ≠ DONE)
      then (st, FetchResolved (currentReleases st))
      else
        let st := with_activeArtistId (Some artistId) st in
        let st := reset st in
        let st := transitionPhase ARTISTVIEW st in
        fetchArtistView artistId st
  end.

(** Lines 358-369, after [await fetchArtistView(artistId)]. *)
Definition after_artistView (artistId : string) (r : result json) (st : State)
  : State * Task :=
  match r with
  | Throw => pipeline_catch st
  | Ok artistViewData =>
      if negb (truthy artistViewData) || bool_decide (phase st = ABORTED) then
        pipeline_finally [] (reset st)
      else
        match collectReleasesDeep artistViewData [] 0 with
        | Throw => pipeline_catch st
        | Ok releasesMap => fetchArtistAlbumsPaged artistId releasesMap 2 st
        end
  end.

(** Lines 371-399, after [await fetchArtistAlbumsPaged(...)]. *)
Definition after_paged (artistId : string) (releasesMap : ReleasesMap)
    (r : result unit) (st : State) : State * Task :=
  match r with
  | Throw => pipeline_catch st
  | Ok _ =>
      if (size releasesMap =? 0)%nat then
        pipeline_finally [] (reset (transitionPhase DONE st))
      else
        match array_sort compare_releases (values releasesMap) with
        | Throw => pipeline_catch st
        | Ok sorted =>
            let st := with_currentReleases sorted st in
            let st := transitionPhase DONE st in
            let st := with_discographyReleaseCache
                        (<[artistId := currentReleases st]> (discographyReleaseCache st)) st in
            pipeline_finally (currentReleases st) st
        end
  end.

(** *** [hydrateAlbumDetails] (lines 417-469) *)

Definition album_uri (albumId : string) : json := JStr ("spotify:album:" +:+ albumId).

Definition cached_release (albumId : string) (cached : json) : DiscographyRelease :=
  {| id := JStr albumId;
     name := get cached "name" ||| JStr albumId;
     release_date := get cached "release_date" ||| JStr "";
     album_type := get cached "album_type" ||| JStr "";
     uri := album_uri albumId;
     imageUrl := get (get0 (get cached "images")) "url" ||| JStr "" |}.

Definition fetched_release (albumId : string) (album : json) : DiscographyRelease :=
  {| id := JStr albumId;
     name := get album "name" ||| JStr albumId;
     release_date := get album "release_date" ||| JStr "";
     album_type := get album "album_type" ||| JStr "";
     uri := get album "uri" ||| album_uri albumId;
     imageUrl := get (get0 (get album "images")) "url" ||| JStr "" |}.

Definition hydrateAlbumDetails (albumId : string) (st : State) : State * Task :=
  match albumCache st !! albumId with
  | Some cached =>
      match cached with
      | JUndefined | JNull => (st, HydrateSettled Throw)
      | _ => (st, HydrateSettled (Ok (Some (cached_release albumId cached))))
      end
  | None => (emit (Delay 30000) st, AwaitHydrateDelay albumId)
  end.

Definition hydrate_delayed (albumId : string) (st : State) : State * Task :=
  if negb cosmosAvailable then (st, HydrateSettled (Ok None))
  else (emit (CosmosGet (album_url albumId)) st, AwaitHydrateGet albumId).

(** Lines 448-468.  The log line of line 450 interpolates [album.name]
    after the cache has been written; if that conversion throws, the catch
    block runs and the call returns [null]. *)
Definition hydrate_settled (albumId : string) (s : Settled) (st : State)
  : State * Task :=
  match s with
  | Fulfilled album =>
      if truthy album then
        let st := with_albumCache (<[albumId := album]> (albumCache st)) st in
        match to_string (get album "name") with
        | Ok _ => (st, HydrateSettled (Ok (Some (fetched_release albumId album))))
        | Throw => (st, HydrateSettled (Ok None))
        end
      else (st, HydrateSettled (Ok None))
  | Rejected error =>
      match isRateLimitError error with
      | Throw => (st, HydrateSettled Throw)
      | Ok _ => (st, HydrateSettled (Ok None))
      end
  end.

(** *** [abortDiscographyFetch] and [getDiscographyStatus] (lines 475-495) *)

Definition abortDiscographyFetch (st : State) : State :=
  if bool_decide (phase st ≠ IDLE) && bool_decide (phase st ≠ DONE)
  then abortCurrentWork st else st.

Definition getDiscographyStatus (st : State) : Phase * option string * nat :=
  (phase st, activeArtistId st, length (currentReleases st)).

(** ** The scheduler *)

(** A suspended task resumes when the promise it awaits settles.  Timers
    and the promises of the module's own functions fulfil with a value the
    code ignores. *)
Definition resume (t : Task) (s : Settled) (st : State) : State * Task :=
  match t with
  | AwaitArtistViewGet a => fetchArtistView_settled a s st
  | AwaitArtistView a r => after_artistView a r st
  | AwaitPageGet a m maxPages page offset => page_settled a m maxPages page offset s st
  | AwaitPageDelay a m maxPages page offset => paged_loop a m maxPages page offset st
  | AwaitPaged a m r => after_paged a m r st
  | AwaitHydrateDelay a => hydrate_delayed a st
  | AwaitHydrateGet a => hydrate_settled a s st
  | FetchResolved _ | HydrateSettled _ => (st, t)
  end.

(** The module state and every call made so far, in call order. *)
Record System : Type := mkSystem {
  state : State;
  tasks : list Task
}.

Definition initial_system : System := mkSystem initial_state [].

Inductive Event : Type :=
| CallFetch (artistId : string)
| CallHydrate (albumId : string)
| CallAbort
| Settle (task : nat) (s : Settled).

Definition spawn (sys : System) (r : State * Task) : System :=
  mkSystem (fst r) (tasks sys ++ [snd r]).

Definition step (sys : System) (ev : Event) : System :=
  match ev with
  | CallFetch a => spawn sys (fetchDiscographyForArtist a (state sys))
  | CallHydrate a => spawn sys (hydrateAlbumDetails a (state sys))
  | CallAbort => mkSystem (abortDiscographyFetch (state sys)) (tasks sys)
  | Settle i s =>
      match tasks sys !! i with
      | Some t =>
          let r := resume t s (state sys) in
          mkSystem (fst r) (<[i := snd r]> (tasks sys))
      | None => sys
      end
  end.

Definition run (sys : System) (evs : list Event) : System := fold_left step evs sys.

Definition reachable (sys : System) : Prop :=
  exists evs, run initial_system evs = sys.

(** An upper bound on the settlements a task still needs before its
    promise settles, and the loop condition under which [AwaitPageGet] is
    created. *)
Definition steps_left (t : Task) : nat :=
  match t with
  | AwaitArtistViewGet _ => 7
  | AwaitArtistView _ _ => 6
  | AwaitPageGet _ _ maxPages page _ => 2 * Z.to_nat (maxPages - page) + 1
  | AwaitPageDelay _ _ maxPages page _ => 2 * Z.to_nat (maxPages - page) + 2
  | AwaitPaged _ _ _ => 1
  | AwaitHydrateDelay _ => 2
  | AwaitHydrateGet _ => 1
  | FetchResolved _ | HydrateSettled _ => 0
  end.

Definition in_loop (t : Task) : Prop :=
  match t with
  | AwaitPageGet _ _ maxPages page _ => page < maxPages
  | _ => True
  end.

Definition is_fetch_task (t : Task) : bool :=
  match t with
  | AwaitHydrateDelay _ | AwaitHydrateGet _ | HydrateSettled _ => false
  | _ => true
  end.

(** *** Calls that run alone

    A call is not interleaved when, from its start to its settlement, only
    its own continuations run. *)

Definition settled (t : Task) : bool :=
  match t with
  | FetchResolved _ | HydrateSettled _ => true
  | _ => false
  end.

(** The task resumed once per settlement of [script]. *)
Definition drive (r : State * Task) (script : list Settled) : State * Task :=
  fold_left (fun r s => resume (snd r) s (fst r)) script r.

Definition settle_script (i : nat) (script : list Settled) : list Event :=
  map (Settle i) script.

(** The call [ev] started in [sys] and resumed alone along [script]; the new
    task has index [length (tasks sys)]. *)
Definition call_alone (sys : System) (ev : Event) (script : list Settled) : System :=
  run (step sys ev) (settle_script (length (tasks sys)) script).

(** No call of [fetchDiscographyForArtist] is in flight. *)
Definition pipeline_idle (t : Task) : bool :=
  negb (is_fetch_task t) || settled t.

Definition no_pipeline_in_flight (sys : System) : Prop :=
  Forall (fun t => pipeline_idle t = true) (tasks sys).

Definition at_rest (st : State) : Prop :=
  phase st = IDLE /\ activeArtistId st = None.

(** ** [cooldown] and [hydrateAlbumsBatch] (lines 238-314)

    Nothing in the module calls these two; they are modelled as the source
    has them.  [cooldown] reads the clock ([Date.now()]) once for
    [startTime] and once per test of its loop; the readings are inputs. *)

Inductive AuxTask : Type :=
(* cooldown waits for delay(100) (line 250) *)
| AwaitCooldownDelay (startTime : Z)
(* the promise of cooldown is settled *)
| CooldownSettled (r : result unit)
(* hydrateAlbumsBatch waits for CosmosAsync.get (line 292) *)
| AwaitBatchGet (missing : list string) (batchSize delayMs i : Z)
(* hydrateAlbumsBatch waits for delay(delayMs) (line 301) *)
| AwaitBatchDelay (missing : list string) (batchSize delayMs i : Z)
(* the promise of hydrateAlbumsBatch is settled *)
| BatchSettled (r : result unit).

Definition cooldownMs : Z := 10000.

(** The test of the [while] loop of line 245 at clock reading [now], up to
    the next [await]. *)
Definition cooldown_loop (startTime now : Z) (st : State) : State * AuxTask :=
  if now - startTime <? cooldownMs then
    if bool_decide (phase st = ABORTED) then (st, CooldownSettled (Ok tt))
    else (emit (Delay 100) st, AwaitCooldownDelay startTime)
  else (st, CooldownSettled (Ok tt)).

Definition cooldown (startTime now : Z) (st : State) : State * AuxTask :=
  match assertPhase [COOLDOWN] st with
  | Throw => (st, CooldownSettled Throw)
  | Ok _ => cooldown_loop startTime now st
  end.

(** [l.slice(start, stop)]: negative positions count from the end. *)
Definition slice {A : Type} (l : list A) (start stop : Z) : list A :=
  let len := Z.of_nat (length l) in
  let k := if start <? 0 then Z.max (len + start) 0 else Z.min start len in
  let final := if stop <? 0 then Z.max (len + stop) 0 else Z.min stop len in
  take (Z.to_nat (final - k)) (drop (Z.to_nat k) l).

(** [chunk.join(",")] *)
Fixpoint join_comma (l : list string) : string :=
  match l with
  | [] => ""
  | [x] => x
  | x :: rest => x +:+ "," +:+ join_comma rest
  end.

Definition albums_batch_url (chunk : list string) : string :=
  "https://api.spotify.com/v1/albums?ids=" +:+ join_comma chunk.

(** [if (album?.id) albumCache.set(album.id, album)].  The cache is only
    ever read under string keys; an entry set under an id that is not a
    string is never found again, and is not recorded. *)
Definition cache_album (cache : gmap string json) (album : json) : gmap string json :=
  if truthy (get album "id") then
    match get album "id" with
    | JStr s => <[s := album]> cache
    | _ => cache
    end
  else cache.

(** The head of the [for] loop of line 278, up to the next [await].
    [batchSize] and the counter [i] are integers, as the default of 5 is:
    on integers the arithmetic of [i += batchSize] is exact.  A batch size
    with a fraction is outside the model.  The
    source does not test for [CosmosAsync.get] here: without it the call
    throws a [TypeError] inside the [try], which the catch block logs and
    returns on. *)
Definition batch_loop (missing : list string) (batchSize delayMs i : Z) (st : State)
  : State * AuxTask :=
  if i <? Z.of_nat (length missing) then
    if bool_decide (phase st = ABORTED) then (st, BatchSettled (Ok tt))
    else if negb cosmosAvailable then (st, BatchSettled (Ok tt))
    else (emit (CosmosGet (albums_batch_url (slice missing i (i + batchSize)))) st,
          AwaitBatchGet missing batchSize delayMs i)
  else (st, BatchSettled (Ok tt)).

Definition hydrateAlbumsBatch (albumIds : list string) (batchSize delayMs : Z)
    (st : State) : State * AuxTask :=
  match assertPhase [HYDRATING] st with
  | Throw => (st, BatchSettled Throw)
  | Ok _ =>
      let missing :=
        List.filter (fun id => negb (bool_decide (is_Some (albumCache st !! id))))
                    albumIds in
      if (length missing =? 0)%nat then (st, BatchSettled (Ok tt))
      else batch_loop missing batchSize delayMs 0 st
  end.

(** Lines 292-310.  [res?.albums?.forEach] skips a missing [albums]; on a
    value of another kind than an array the call is a [TypeError], caught,
    logged and returned on. *)
Definition batch_settled (missing : list string) (batchSize delayMs i : Z)
    (s : Settled) (st : State) : State * AuxTask :=
  match s with
  | Fulfilled res =>
      match get res "albums" with
      | JUndefined | JNull =>
          (emit (Delay delayMs) st, AwaitBatchDelay missing batchSize delayMs i)
      | JArr albums =>
          (emit (Delay delayMs)
                (with_albumCache (fold_left cache_album albums (albumCache st)) st),
           AwaitBatchDelay missing batchSize delayMs i)
      | _ => (st, BatchSettled (Ok tt))
      end
  | Rejected error =>
      match isRateLimitError error with
      | Throw => (st, BatchSettled Throw)
      | Ok true => (transitionPhase ABORTED st, BatchSettled (Ok tt))
      | Ok false => (st, BatchSettled (Ok tt))
      end
  end.

(** A suspended [cooldown] or [hydrateAlbumsBatch] resumes; [now] is the
    clock reading of the loop test that follows. *)
Definition aux_resume (t : AuxTask) (now : Z) (s : Settled) (st : State)
  : State * AuxTask :=
  match t with
  | AwaitCooldownDelay startTime => cooldown_loop startTime now st
  | AwaitBatchGet missing batchSize delayMs i =>
      batch_settled missing batchSize delayMs i s st
  | AwaitBatchDelay missing batchSize delayMs i =>
      batch_loop missing batchSize delayMs (i + batchSize) st
  | CooldownSettled _ | BatchSettled _ => (st, t)
  end.

(** ** Schedules *)

(** A timer, or a promise of the module's own functions, fulfils. *)
Definition tick : Settled := Fulfilled JUndefined.

(** One call for artist "A" that runs alone: the overview arrives, the
    first album page is empty. *)
Definition alone_A : list Event :=
  [CallFetch "A"; Settle 0 (Fulfilled overview_A); Settle 0 tick;
   Settle 0 (Fulfilled empty_page); Settle 0 tick].

(** Then one call for artist "B", alone as well (it is task 1). *)
Definition then_alone_B : list Event :=
  [CallFetch "B"; Settle 1 (Fulfilled overview_B); Settle 1 tick;
   Settle 1 (Fulfilled empty_page); Settle 1 tick].

(** Task 0 runs to its end while whatever was called after it stays
    suspended. *)
Definition finish_task_0 : list Event :=
  [Settle 0 (Fulfilled overview_A); Settle 0 tick;
   Settle 0 (Fulfilled empty_page); Settle 0 tick].

(** One call for "A" whose first album page request is rejected with a
    rate-limit error. *)
Definition rate_limited_page_A : list Event :=
  [CallFetch "A"; Settle 0 (Fulfilled overview_A); Settle 0 tick;
   Settle 0 (Rejected rate_limit_error)].

(** One hydration of album "x1" that runs alone and succeeds. *)
Definition hydrate_x1 : list Event :=
  [CallHydrate "x1"; Settle 0 tick; Settle 0 (Fulfilled album_detail)].

(** ** Notions used in the statements *)

(** [m'] is [m] with entries appended: nothing of [m] is changed or moved. *)
Definition extends (m m' : ReleasesMap) : Prop := exists ext, m' = m ++ ext.

Fixpoint keys_distinct (m : ReleasesMap) : Prop :=
  match m with
  | [] => True
  | (k, _) :: rest => has rest k = false /\ keys_distinct rest
  end.

(** [e] is the entry of a normalisable object at most [10 - depth] levels
    below [value]. *)
Definition collected_from (value : json) (depth : nat)
    (e : json * DiscographyRelease) : Prop :=
  exists k c r, nested k value c /\ (depth + k <= 10)%nat /\
                normalizeReleaseItem c = Ok (Some r) /\ e = (id r, r).

(** The date of a release whose [release_date] is a string. *)
Definition date_of (r : DiscographyRelease) : string :=
  match release_date r with JStr s => s | _ => "" end.

(** [date_ge a b]: the date of [a] is lexicographically at least that of [b]. *)
Definition date_ge (a b : DiscographyRelease) : Prop :=
  String.compare (date_of b) (date_of a) <> Gt.

Definition has_date (d : string) (r : DiscographyRelease) : bool :=
  String.eqb (date_of r) d.

Definition dates_are_strings (l : list DiscographyRelease) : Prop :=
  Forall (fun r => is_string (release_date r) = true) l.

(** On the dates of [l] the host's collation orders as code units do (as it
    does on digits and hyphens). *)
Definition collation_is_lexicographic (l : list DiscographyRelease) : Prop :=
  forall a b, In a l -> In b l ->
    Z.sgn (localeCompare (date_of a) (date_of b)) = lex_compare (date_of a) (date_of b).

(** Invariants of the reachable states. *)
Definition cached_albums_truthy (st : State) : Prop :=
  forall k v, albumCache st !! k = Some v -> truthy v = true.

Definition state_invariant (st : State) : Prop :=
  activeArtistId st = None /\ cached_albums_truthy st.

(** Whenever no pipeline call is in flight, the module is at rest. *)
Definition rest_invariant (sys : System) : Prop :=
  no_pipeline_in_flight sys -> at_rest (state sys).

(** What a release that [normalizeReleaseItem] accepted looks like. *)
Definition well_formed_release (r : DiscographyRelease) : Prop :=
  truthy (id r) = true /\ truthy (name r) = true /\ truthy (uri r) = true
  /\ (exists tag, album_type r = JStr tag /\ toLowerCase tag = tag)
  /\ (truthy (release_date r) = true \/ release_date r = JStr "").

(** No two releases of the list have the same id, as [Map] compares ids. *)
Fixpoint ids_distinct (l : list DiscographyRelease) : Prop :=
  match l with
  | [] => True
  | r :: rest =>
      Forall (fun r' => same_value_zero (id r') (id r) = false) rest
      /\ ids_distinct rest
  end.

Definition date_is_string (r : DiscographyRelease) : bool := is_string (release_date r).

(** Counting what a schedule asked for and what the module did. *)
Definition is_request (e : Effect) : bool :=
  match e with CosmosGet _ => true | _ => false end.

Definition is_delay (e : Effect) : bool :=
  match e with Delay _ => true | _ => false end.

Definition requests (l : list Effect) : nat := length (List.filter is_request l).
Definition delays_started (l : list Effect) : nat := length (List.filter is_delay l).

Definition is_fetch_call (ev : Event) : bool :=
  match ev with CallFetch _ => true | _ => false end.

Definition is_hydrate_call (ev : Event) : bool :=
  match ev with CallHydrate _ => true | _ => false end.

Definition fetch_calls (evs : list Event) : nat := length (List.filter is_fetch_call evs).
Definition hydrate_calls (evs : list Event) : nat :=
  length (List.filter is_hydrate_call evs).

(** The requests a task may still issue. *)
Definition requests_left (t : Task) : nat :=
  match t with
  | AwaitArtistViewGet _ | AwaitArtistView _ _ => 2
  | AwaitPageGet _ _ maxPages page _ => Z.to_nat (maxPages - page - 1)
  | AwaitPageDelay _ _ maxPages page _ => Z.to_nat (maxPages - page)
  | AwaitHydrateDelay _ => 1
  | _ => 0
  end.

(** The requests a task may still issue without starting a delay first. *)
Definition unpaced_left (t : Task) : nat :=
  match t with
  | AwaitArtistViewGet _ | AwaitArtistView _ _
  | AwaitPageDelay _ _ _ _ _ | AwaitHydrateDelay _ => 1
  | _ => 0
  end.

Definition total (f : Task -> nat) (l : list Task) : nat := sum_list_with f l.

(** The effects the module is written to have. *)
Definition expected_effect (e : Effect) : Prop :=
  match e with
  | CosmosGet url =>
      (exists a, url = artistview_url a)
      \/ (exists a, url = albums_url a 50 0)
      \/ (exists a, url = albums_url a 50 50)
      \/ (exists a, url = album_url a)
  | Delay ms => ms = 5000 \/ ms = 30000
  | PhaseChange old new =>
      (old = IDLE /\ new = ARTISTVIEW) \/ new = DONE \/ new = ABORTED
  end.

(** Where the paged fetch of a pipeline can stand: at page 0 or 1 of 2
    when it waits for a page, at page 1 or 2 when it waits for the delay,
    the offset being 50 times the page. *)
Definition page_position (t : Task) : Prop :=
  match t with
  | AwaitPageGet _ _ maxPages page offset =>
      maxPages = 2 /\ ((page = 0 /\ offset = 0) \/ (page = 1 /\ offset = 50))
  | AwaitPageDelay _ _ maxPages page offset =>
      maxPages = 2 /\ ((page = 1 /\ offset = 50) \/ (page = 2 /\ offset = 100))
  | _ => True
  end.

Definition observable_phase (p : Phase) : Prop :=
  p = IDLE \/ p = ARTISTVIEW \/ p = ABORTED.

(** The lists and maps of releases a system holds. *)
Definition good_entry (e : json * DiscographyRelease) : Prop :=
  fst e = id (snd e) /\ well_formed_release (snd e).

Definition good_map (m : ReleasesMap) : Prop :=
  Forall good_entry m /\ keys_distinct m.

Definition good_list (l : list DiscographyRelease) : Prop :=
  Forall well_formed_release l /\ ids_distinct l.

Definition task_lists_ok (t : Task) : Prop :=
  match t with
  | AwaitPageGet _ m _ _ _ | AwaitPageDelay _ m _ _ _ | AwaitPaged _ m _ => good_map m
  | FetchResolved l => good_list l
  | _ => True
  end.

Definition state_lists_ok (st : State) : Prop :=
  good_list (currentReleases st)
  /\ forall a l, discographyReleaseCache st !! a = Some l -> l <> [] /\ good_list l.

(** Schedules with a call of [abortDiscographyFetch] in them; [i] is the
    index the new call of [fetchDiscographyForArtist] gets. *)
Definition abort_before_overview (i : nat) (a : string) (s : Settled) : list Event :=
  [CallFetch a; CallAbort; Settle i s; Settle i tick].

Definition abort_while_paging (i : nat) (a : string) (overview page : json)
  : list Event :=
  [CallFetch a; Settle i (Fulfilled overview); Settle i tick; CallAbort;
   Settle i (Fulfilled page); Settle i tick; Settle i tick].

(** The same album asked for twice before the first call has got past its
    delay; [i] is the index of the first call. *)
Definition hydrate_twice (i : nat) (a : string) : list Event :=
  [CallHydrate a; CallHydrate a; Settle i tick; Settle (S i) tick].

(** A rejection whose message the catch blocks can read. *)
Definition readable (s : Settled) : Prop :=
  match s with
  | Fulfilled _ => True
  | Rejected e => isRateLimitError e <> Throw
  end.




(** Every cached artist and album of [st] is still cached in [st']. *)
Definition keeps_entries (st st' : State) : Prop :=
  (forall a, is_Some (discographyReleaseCache st !! a) ->
             is_Some (discographyReleaseCache st' !! a))
  /\ (forall a, is_Some (albumCache st !! a) -> is_Some (albumCache st' !! a)).

(** [cooldown] and [hydrateAlbumsBatch] resumed along a script of clock
    readings and settlements. *)
Definition aux_settled (t : AuxTask) : bool :=
  match t with
  | CooldownSettled _ | BatchSettled _ => true
  | _ => false
  end.

Definition aux_drive (r : State * AuxTask) (script : list (Z * Settled))
  : State * AuxTask :=
  fold_left (fun r ns => aux_resume (snd r) (fst ns) (snd ns) (fst r)) script r.

(** A batch response the loop goes on after: no [albums], or an array. *)
Definition batch_response (ns : Z * Settled) : Prop :=
  match snd ns with
  | Fulfilled res =>
      match get res "albums" with
      | JUndefined | JNull | JArr _ => True
      | _ => False
      end
  | Rejected _ => False
  end.

(** The settlements a batch still needs, and where its loop stands. *)
Definition batch_steps_left (t : AuxTask) : nat :=
  match t with
  | AwaitBatchGet missing _ _ i => 2 * Z.to_nat (Z.of_nat (length missing) - i)
  | AwaitBatchDelay missing _ _ i => 2 * Z.to_nat (Z.of_nat (length missing) - i) - 1
  | _ => 0
  end.

Definition batch_position (t : AuxTask) : Prop :=
  match t with
  | AwaitBatchGet missing batchSize _ i | AwaitBatchDelay missing batchSize _ i =>
      0 < batchSize /\ i < Z.of_nat (length missing)
  | AwaitCooldownDelay _ => False
  | _ => True
  end.

Definition batch_stuck (t : AuxTask) : Prop :=
  match t with
  | AwaitBatchGet missing batchSize _ i | AwaitBatchDelay missing batchSize _ i =>
      batchSize <= 0 /\ i <= 0 /\ missing <> []
  | _ => False
  end.

(** * Properties *)

(** ** The release map *)

Lemma extends_refl m : extends m m.
Proof. exists []. by rewrite app_nil_r. Qed.

Lemma extends_trans m1 m2 m3 : extends m1 m2 -> extends m2 m3 -> extends m1 m3.
Proof. intros [e1 ->] [e2 ->]. exists (e1 ++ e2). by rewrite app_assoc. Qed.


Lemma same_value_zero_sym a b : same_value_zero a b = same_value_zero b a.
Proof.
  destruct a, b; simpl; try reflexivity.
  - by destruct b, b0.
  - apply Z.eqb_sym.
  - apply String.eqb_sym.
Qed.

Lemma has_app m1 m2 k : has (m1 ++ m2) k = has m1 k || has m2 k.
Proof. unfold has. apply existsb_app. Qed.


Lemma set_absent m k v : has m k = false -> set m k v = m ++ [(k, v)].
Proof.
  induction m as [|[k' v'] m IH]; simpl; [done|].
  intros E. apply orb_false_elim in E as [E1 E2].
  rewrite E1. by rewrite IH.
Qed.

Lemma add_if_absent_extends m r : extends m (add_if_absent m r).
Proof.
  destruct r as [r|]; simpl; [|apply extends_refl].
  destruct (has m (id r)) eqn:E; simpl; [apply extends_refl|].
  exists [(id r, r)]. by apply set_absent.
Qed.

Lemma keys_distinct_snoc m k v :
  keys_distinct m -> has m k = false -> keys_distinct (m ++ [(k, v)]).
Proof.
  induction m as [|[k' v'] m IH]; simpl.
  - by intros _ _.
  - intros [H1 H2] E. apply orb_false_elim in E as [E1 E2]. split.
    + rewrite has_app, H1. simpl. by rewrite same_value_zero_sym, E1.
    + by apply IH.
Qed.

Lemma add_if_absent_distinct m r :
  keys_distinct m -> keys_distinct (add_if_absent m r).
Proof.
  intros Hd. destruct r as [r|]; simpl; [|done].
  destruct (has m (id r)) eqn:E; simpl; [done|].
  rewrite set_absent by done. by apply keys_distinct_snoc.
Qed.




(** ** Deep collection *)

Section CollectProperties.
Context {V : Type} `{ObjectGraph V}.

Lemma for_each_invariant (P : ReleasesMap -> ReleasesMap -> Prop)
    (visit : V -> ReleasesMap -> result ReleasesMap) items :
  (forall m, P m m) ->
  (forall m1 m2 m3, P m1 m2 -> P m2 m3 -> P m1 m3) ->
  (forall x m m', In x items -> visit x m = Ok m' -> P m m') ->
  forall m m', for_each visit items m = Ok m' -> P m m'.
Proof.
  intros Hrefl Htrans. induction items as [|x rest IH]; simpl; intros Hv m m' E.
  - injection E as <-. apply Hrefl.
  - destruct (visit x m) as [m1|] eqn:E1; simpl in E; [|done].
    apply Htrans with m1; [apply (Hv x); [by left|done]|].
    apply IH; [|done]. intros y n n' Hy. apply Hv. by right.
Qed.





Lemma collect_within_distinct budget (value : V) m depth m' :
  collect_within budget value m depth = Ok m' -> keys_distinct m -> keys_distinct m'.
Proof.
  revert value m depth m'. induction budget as [|b IH]; intros v m d m'; simpl.
  - by intros [= <-].
  - unfold collect_body.
    destruct (negb (g_truthy v) || _); [by intros [= <-]|].
    destruct (g_isArray v).
    + apply (for_each_invariant (fun m m' => keys_distinct m -> keys_distinct m'));
        eauto.
    + destruct (g_typeof_object v); [|by intros [= <-]].
      destruct (g_normalize v) as [r|]; simpl; [|done].
      intros E Hd. apply add_if_absent_distinct with (r := r) in Hd.
      revert E Hd.
      apply (for_each_invariant (fun m m' => keys_distinct m -> keys_distinct m'));
        eauto.
Qed.
End CollectProperties.

(** *** Deep collection over parsed JSON *)



Lemma add_if_absent_In m r e :
  In e (add_if_absent m r) -> In e m \/ exists r', r = Some r' /\ e = (id r', r').
Proof.
  destruct r as [r|]; simpl; [|by left].
  destruct (has m (id r)) eqn:E; simpl; [by left|].
  rewrite set_absent by done. rewrite in_app_iff. intros [?|[<-|[]]]; [by left|].
  right. by exists r.
Qed.

Lemma collect_within_sound budget (value : json) m depth m' :
  collect_within budget value m depth = Ok m' ->
  forall e, In e m' -> In e m \/ collected_from value depth e.
Proof.
  revert value m depth m'. induction budget as [|b IH]; intros v m d m'; simpl.
  - intros [= <-]; by left.
  - unfold collect_body.
    destruct (negb (g_truthy v) || _) eqn:G; [intros [= <-]; by left|].
    apply orb_false_elim in G as [_ G]. unfold depth_ceiling in G.
    apply Nat.ltb_ge in G.
    destruct v as [| |bb|n|s|items|fields]; simpl; try (intros [= <-]; by left).
    + apply (for_each_invariant
               (fun m m' => forall e, In e m' -> In e m \/ collected_from (JArr items) d e)).
      * intros; by left.
      * intros m1 m2 m3 H12 H23 e He. destruct (H23 e He) as [?|?]; eauto.
      * intros x n n' Hx E e He. destruct (IH _ _ _ _ E e He) as [?|Hc]; [by left|].
        right. destruct Hc as (k & c & r & Hn & Hk & Hr & ->).
        exists (S k), c, r. split; [by eapply nested_element|]. split; [lia|done].
    + destruct (normalizeReleaseItem (JObj fields)) as [r0|] eqn:N; simpl; [|done].
      intros E e He.
      assert (Hstep : In e (add_if_absent m r0) \/ collected_from (JObj fields) d e).
      { revert E e He.
        apply (for_each_invariant
               (fun m m' => forall e, In e m' -> In e m \/ collected_from (JObj fields) d e)).
        * intros; by left.
        * intros m1 m2 m3 H12 H23 e He. destruct (H23 e He) as [?|?]; eauto.
        * intros x n n' Hx E e He. destruct (IH _ _ _ _ E e He) as [?|Hc]; [by left|].
          right. destruct Hc as (k & c & r & Hn & Hk & Hr & ->).
          apply in_map_iff in Hx as [[key x'] [<- Hx]].
          exists (S k), c, r. split; [by eapply nested_field|]. split; [lia|done]. }
      destruct Hstep as [Ha|?]; [|by right].
      apply add_if_absent_In in Ha as [?|(r' & -> & ->)]; [by left|].
      right. exists 0%nat, (JObj fields), r'. split; [constructor|]. split; [lia|done].
Qed.

(** *** The page loop *)

Lemma add_page_items_extends items m : extends m (fst (add_page_items items m)).
Proof.
  revert m. induction items as [|x rest IH]; intros m; simpl; [apply extends_refl|].
  destruct (normalizeReleaseItem x) as [r|]; simpl; [|apply extends_refl].
  eapply extends_trans; [apply add_if_absent_extends|apply IH].
Qed.



(** ** Normalisation *)

Lemma or_else_falsy a b : truthy a = false -> a ||| b = b.
Proof. unfold or_else. by intros ->. Qed.

(** Without an [id] and without any uri there is no identifier. *)
Lemma resolved_id_without_id_and_uri item :
  truthy (get item "id") = false ->
  truthy (resolved_uri item) = false ->
  truthy (resolved_id item) = false.
Proof.
  intros Hid Huri. unfold resolved_id. rewrite (or_else_falsy _ _ Hid).
  assert (Hfrom : id_from_uri (resolved_uri item) = JStr "").
  { destruct (resolved_uri item) as [| | | |s| |]; simpl; try done.
    destruct s; [done|discriminate]. }
  by rewrite Hfrom.
Qed.

(** C7: [normalizeReleaseItem] returns [null] when the resolved identifier
    or the resolved name is falsy (in particular for an item with neither an
    [id] nor a uri), and when the lower-cased type tag is not one of album,
    single, compilation, appears_on, ep while the resolved uri does not
    contain "album"; [{name: "Foo"}] and
    [{id: "x", uri: "spotify:track:x", type: "track"}] are both rejected. *)
Theorem normalizeReleaseItem_rejects :
  (forall item,
      truthy (resolved_id item) = false \/ truthy (resolved_name item) = false ->
      normalizeReleaseItem item = Ok None)
  /\ (forall item,
        truthy (get item "id") = false -> truthy (resolved_uri item) = false ->
        normalizeReleaseItem item = Ok None)
  /\ (forall item tag,
        album_type_raw item = Ok tag ->
        ~ In tag album_types ->
        is_album_uri (resolved_uri item) = false ->
        normalizeReleaseItem item = Ok None)
  /\ normalizeReleaseItem (JObj [("name", JStr "Foo")]) = Ok None
  /\ normalizeReleaseItem
       (JObj [("id", JStr "x"); ("uri", JStr "spotify:track:x"); ("type", JStr "track")])
     = Ok None.
Proof.
  assert (Hmissing : forall item,
             truthy (resolved_id item) = false \/ truthy (resolved_name item) = false ->
             normalizeReleaseItem item = Ok None).
  { intros item Hmiss. unfold normalizeReleaseItem.
    destruct (negb (truthy item)); [done|].
    destruct Hmiss as [-> | ->]; simpl; [done|]. by rewrite orb_true_r. }
  split; [exact Hmissing|]. split; [|split; [|split; reflexivity]].
  - intros item Hid Huri. apply Hmissing. left.
    by apply resolved_id_without_id_and_uri.
  - intros item tag Htag Hnot Huri. unfold normalizeReleaseItem.
    destruct (negb (truthy item)); [done|].
    destruct (negb (truthy (resolved_id item)) || _); [done|].
    assert (Hl : list_includes album_types tag = false).
    { apply not_true_is_false. intros Hin. apply Hnot.
      unfold list_includes in Hin. apply existsb_exists in Hin as (x & Hx & E).
      apply String.eqb_eq in E. by subst. }
    rewrite Htag. unfold mbind, result_bind. by rewrite Hl, Huri.
Qed.

(** ** Sorting *)

Lemma str_lt_trans a b c :
  String.compare a b = Lt -> String.compare b c = Lt -> String.compare a c = Lt.
Proof.
  intros H1 H2. apply OrderedTypeEx.String_as_OT.cmp_lt.
  apply OrderedTypeEx.String_as_OT.cmp_lt in H1, H2.
  eapply OrderedTypeEx.String_as_OT.lt_trans; eauto.
Qed.

Lemma str_compare_refl a : String.compare a a = Eq.
Proof. by apply OrderedTypeEx.String_as_OT.cmp_eq. Qed.

Lemma str_le_lt_trans a b c :
  String.compare a b <> Gt -> String.compare b c = Lt -> String.compare a c = Lt.
Proof.
  intros H1 H2. destruct (String.compare a b) eqn:E; [| |done].
  - apply String.compare_eq_iff in E. by subst.
  - by apply str_lt_trans with b.
Qed.

Lemma str_lt_le a b : String.compare a b = Lt -> String.compare a b <> Gt.
Proof. by intros ->. Qed.

Lemma str_not_lt_ge a b : String.compare a b <> Lt -> String.compare b a <> Gt.
Proof.
  intros Hn. rewrite String.compare_antisym. by destruct (String.compare a b).
Qed.

Lemma str_le_empty d : String.compare d "" <> Gt -> d = "".
Proof. by destruct d. Qed.

Lemma has_date_true d r : has_date d r = true <-> date_of r = d.
Proof. apply String.eqb_eq. Qed.

Lemma compare_releases_strings x e :
  is_string (release_date x) = true -> is_string (release_date e) = true ->
  compare_releases x e = Ok (localeCompare (date_of e) (date_of x)).
Proof.
  unfold compare_releases, date_of.
  by destruct (release_date x), (release_date e).
Qed.

Lemma negative_iff_lt x y :
  Z.sgn (localeCompare x y) = lex_compare x y ->
  (localeCompare x y <? 0) = true <-> String.compare x y = Lt.
Proof.
  unfold lex_compare. intros Hs. rewrite Z.ltb_lt.
  destruct (String.compare x y); split; intros H; try done; lia.
Qed.

(** Nothing in a list whose dates are all below [d] has date [d]. *)
Lemma filter_has_date_below d l :
  Forall (fun e => String.compare (date_of e) d = Lt) l ->
  List.filter (has_date d) l = [].
Proof.
  induction 1 as [|e l He _ IH]; simpl; [done|].
  destruct (has_date d e) eqn:E; [|done].
  apply has_date_true in E. rewrite E, str_compare_refl in He. done.
Qed.

Lemma insert_sorted_spec x sorted :
  StronglySorted date_ge sorted ->
  dates_are_strings (x :: sorted) ->
  collation_is_lexicographic (x :: sorted) ->
  exists out,
    insert_sorted compare_releases x sorted = Ok out
    /\ Permutation (sorted ++ [x]) out
    /\ StronglySorted date_ge out
    /\ forall d, List.filter (has_date d) out
                 = List.filter (has_date d) sorted ++ List.filter (has_date d) [x].
Proof.
  induction sorted as [|e rest IH]; intros Hs Hstr Hcol.
  - exists [x]. simpl. repeat split; auto. repeat constructor.
  - simpl. apply StronglySorted_inv in Hs as [Hrest He].
    pose proof (Forall_inv Hstr) as Hx.
    pose proof (Forall_inv (Forall_inv_tail Hstr)) as Hestr.
    rewrite (compare_releases_strings x e Hx Hestr). simpl.
    assert (Hsgn : Z.sgn (localeCompare (date_of e) (date_of x))
                   = lex_compare (date_of e) (date_of x)).
    { apply Hcol; simpl; auto. }
    destruct (localeCompare (date_of e) (date_of x) <? 0) eqn:C.
    + apply (negative_iff_lt _ _ Hsgn) in C.
      assert (Hbelow : Forall (fun r => String.compare (date_of r) (date_of x) = Lt)
                         (e :: rest)).
      { constructor; [done|]. eapply Forall_impl; [exact He|].
        intros r Hr. by apply str_le_lt_trans with (date_of e). }
      exists (x :: e :: rest). split; [done|]. split.
      { change (e :: rest ++ [x]) with ((e :: rest) ++ [x]).
        symmetry. apply Permutation_cons_append. }
      split.
      { constructor; [by constructor|].
        eapply Forall_impl; [exact Hbelow|]. intros r Hr. by apply str_lt_le. }
      intros d.
      change (List.filter (has_date d) (x :: e :: rest))
        with (if has_date d x then x :: List.filter (has_date d) (e :: rest)
              else List.filter (has_date d) (e :: rest)).
      change (List.filter (has_date d) [x])
        with (if has_date d x then [x] else []).
      destruct (has_date d x) eqn:D.
      * apply has_date_true in D. subst d.
        pose proof (filter_has_date_below _ _ Hbelow) as F.
        simpl in F |- *. by rewrite !F.
      * by rewrite app_nil_r.
    + assert (Hge : date_ge e x).
      { unfold date_ge. apply str_not_lt_ge. intros Hlt.
        apply (negative_iff_lt _ _ Hsgn) in Hlt. congruence. }
      destruct IH as (out & -> & Hperm & Hsorted & Hfilter).
      { done. }
      { constructor; [done|]. apply (Forall_inv_tail (Forall_inv_tail Hstr)). }
      { intros a b Ha Hb. apply Hcol; simpl in *; tauto. }
      exists (e :: out). split; [done|]. split; [by constructor|]. split.
      { constructor; [done|].
        apply (Permutation_Forall Hperm). apply Forall_app. split; [done|].
        by constructor. }
      intros d. simpl. rewrite Hfilter. simpl.
      by destruct (has_date d e).
Qed.

Lemma sort_onto_spec l : forall sorted,
  StronglySorted date_ge sorted ->
  dates_are_strings (sorted ++ l) ->
  collation_is_lexicographic (sorted ++ l) ->
  exists out,
    sort_onto compare_releases sorted l = Ok out
    /\ Permutation (sorted ++ l) out
    /\ StronglySorted date_ge out
    /\ forall d, List.filter (has_date d) out
                 = List.filter (has_date d) sorted ++ List.filter (has_date d) l.
Proof.
  induction l as [|x rest IH]; intros sorted Hs Hstr Hcol.
  - exists sorted. simpl. rewrite !app_nil_r. repeat split; auto.
    intros d. by rewrite app_nil_r.
  - simpl.
    destruct (insert_sorted_spec x sorted Hs) as (s1 & -> & Hp1 & Hs1 & Hf1).
    { apply Forall_app in Hstr as [H1 H2]. constructor; [by apply Forall_inv in H2|done]. }
    { intros a b Ha Hb. apply Hcol; rewrite in_app_iff; simpl in *; tauto. }
    simpl.
    assert (Hp : Permutation (sorted ++ x :: rest) (s1 ++ rest)).
    { change (x :: rest) with ([x] ++ rest). rewrite app_assoc.
      by apply Permutation_app_tail. }
    destruct (IH s1 Hs1) as (out & -> & Hp2 & Hs2 & Hf2).
    { by apply (Permutation_Forall Hp). }
    { intros a b Ha Hb. symmetry in Hp.
      apply Hcol; eapply Permutation_in; eauto. }
    exists out. split; [done|]. split; [by etransitivity|]. split; [done|].
    intros d. rewrite Hf2, Hf1. simpl. rewrite <- app_assoc.
    by destruct (has_date d x).
Qed.

Lemma array_sort_spec l :
  dates_are_strings l -> collation_is_lexicographic l ->
  exists out,
    array_sort compare_releases l = Ok out
    /\ Permutation l out
    /\ StronglySorted date_ge out
    /\ forall d, List.filter (has_date d) out = List.filter (has_date d) l.
Proof.
  intros Hstr Hcol. apply (sort_onto_spec l []); auto. constructor.
Qed.

(** In a list sorted by descending date, what follows an empty date has an
    empty date. *)
Lemma sorted_empty_dates_last l1 r l2 :
  StronglySorted date_ge (l1 ++ r :: l2) -> date_of r = "" ->
  Forall (fun r' => date_of r' = "") l2.
Proof.
  induction l1 as [|x l1 IH]; simpl; intros Hs Hr.
  - apply StronglySorted_inv in Hs as [_ Hall].
    eapply Forall_impl; [exact Hall|]. intros r' Hge.
    unfold date_ge in Hge. rewrite Hr in Hge. by apply str_le_empty.
  - apply StronglySorted_inv in Hs as [Hs _]. by apply IH.
Qed.

(** C6: when the merged map is not empty, its release dates are strings and
    the host's collation orders those dates as code units do, the run
    completes with a list that is cached and returned, holds exactly the
    releases of the map, is in descending lexicographic order of
    [release_date], keeps releases of equal date in their merge order, and
    has the releases without a date at its end. *)
Theorem successful_run_sorted_descending_stable
    (artistId : string) (releasesMap : ReleasesMap) (st : State) :
  releasesMap <> [] ->
  dates_are_strings (map snd releasesMap) ->
  collation_is_lexicographic (map snd releasesMap) ->
  exists sorted st',
    after_paged artistId releasesMap (Ok tt) st = (st', FetchResolved sorted)
    /\ discographyReleaseCache st' !! artistId = Some sorted
    /\ currentReleases st' = sorted
    /\ Permutation (map snd releasesMap) sorted
    /\ StronglySorted date_ge sorted
    /\ (forall d, List.filter (has_date d) sorted
                  = List.filter (has_date d) (map snd releasesMap))
    /\ (forall l1 r l2, sorted = l1 ++ r :: l2 -> date_of r = "" ->
                        Forall (fun r' => date_of r' = "") l2).
Proof.
  intros Hne Hstr Hcol. change (map snd releasesMap) with (values releasesMap) in *.
  destruct (array_sort_spec _ Hstr Hcol) as (sorted & Hsort & Hperm & Hsorted & Hstable).
  unfold after_paged. rewrite Hsort.
  destruct releasesMap as [|e m]; [done|]. simpl size. simpl Nat.eqb. cbv iota.
  eexists sorted, _. split; [reflexivity|].
  split; [simpl; by rewrite lookup_insert_eq|].
  split; [reflexivity|]. split; [done|]. split; [done|]. split; [done|].
  intros l1 r l2 -> Hr. by apply sorted_empty_dates_last with l1 r.
Qed.

(** ** The controller *)

#[local] Arguments collectReleasesDeep : simpl never.
#[local] Arguments normalizeReleaseItem : simpl never.
#[local] Arguments isRateLimitError : simpl never.
#[local] Arguments array_sort : simpl never.
#[local] Arguments add_page_items : simpl never.
#[local] Arguments to_string : simpl never.
#[local] Arguments artistview_url : simpl never.
#[local] Arguments albums_url : simpl never.
#[local] Arguments album_url : simpl never.

(** The control flow of the asynchronous functions is unfolded; the state
    updates are left folded and reduce under the projections that read
    them. *)
Ltac unfold_controller :=
  unfold fetchDiscographyForArtist, after_artistView, after_paged,
    fetchArtistView, fetchArtistView_settled,
    fetchArtistAlbumsPaged, paged_loop, page_settled,
    pipeline_catch, pipeline_finally, hydrateAlbumDetails, hydrate_delayed,
    hydrate_settled, abortDiscographyFetch, assertPhase in *.

Ltac split_cases :=
  repeat (cbn in *;
          match goal with
          | |- context [match ?x with _ => _ end] => destruct x eqn:?
          | |- context [if ?b then _ else _] => destruct b eqn:?
          end).

(** *** [activeArtistId] is cleared as soon as it is set *)

Lemma resume_activeArtistId t s st :
  activeArtistId st = None -> activeArtistId (fst (resume t s st)) = None.
Proof.
  intros Hn. destruct t; simpl; unfold_controller; split_cases; simpl; auto.
Qed.

Lemma fetchDiscographyForArtist_activeArtistId a st :
  activeArtistId st = None -> activeArtistId (fst (fetchDiscographyForArtist a st)) = None.
Proof.
  intros Hn. unfold_controller. rewrite Hn. split_cases; simpl; auto.
Qed.

Lemma resume_albumCache t s st :
  cached_albums_truthy st -> cached_albums_truthy (fst (resume t s st)).
Proof.
  unfold cached_albums_truthy. intros Hc.
  destruct t; simpl; unfold_controller; split_cases; simpl; auto.
  all: intros k' v'; rewrite lookup_insert; case_decide; [intros [= <-]|]; eauto.
Qed.

Lemma fetchDiscographyForArtist_albumCache a st :
  albumCache (fst (fetchDiscographyForArtist a st)) = albumCache st.
Proof. unfold_controller. split_cases; simpl; auto. Qed.

Lemma hydrateAlbumDetails_unchanged a st :
  activeArtistId (fst (hydrateAlbumDetails a st)) = activeArtistId st
  /\ albumCache (fst (hydrateAlbumDetails a st)) = albumCache st
  /\ phase (fst (hydrateAlbumDetails a st)) = phase st.
Proof. unfold_controller. split_cases; simpl; auto. Qed.

Lemma abortDiscographyFetch_unchanged st :
  activeArtistId st = None ->
  activeArtistId (abortDiscographyFetch st) = None
  /\ albumCache (abortDiscographyFetch st) = albumCache st.
Proof. intros Hn. unfold_controller. split_cases; simpl; auto. Qed.

Lemma step_invariant sys ev :
  state_invariant (state sys) -> state_invariant (state (step sys ev)).
Proof.
  intros [Hn Hc]. destruct ev as [a|a| |i s]; simpl.
  - split; [by apply fetchDiscographyForArtist_activeArtistId|].
    unfold cached_albums_truthy. by rewrite fetchDiscographyForArtist_albumCache.
  - destruct (hydrateAlbumDetails_unchanged a (state sys)) as (E1 & E2 & _).
    split; [by rewrite E1|]. unfold cached_albums_truthy. by rewrite E2.
  - destruct (abortDiscographyFetch_unchanged _ Hn) as [E1 E2].
    split; [done|]. unfold cached_albums_truthy. by rewrite E2.
  - destruct (tasks sys !! i) as [t|]; simpl; [|done].
    split; [by apply resume_activeArtistId|by apply resume_albumCache].
Qed.

Lemma run_invariant evs : forall sys,
  state_invariant (state sys) -> state_invariant (state (run sys evs)).
Proof.
  induction evs as [|ev evs IH]; intros sys Hi; simpl; [done|].
  by apply IH, step_invariant.
Qed.

Lemma reachable_invariant sys : reachable sys -> state_invariant (state sys).
Proof.
  intros [evs <-]. apply run_invariant. split; [done|].
  intros k v. simpl. by rewrite lookup_empty.
Qed.

Lemma activeArtistId_always_null sys : reachable sys -> activeArtistId (state sys) = None.
Proof. intros Hr. by apply reachable_invariant in Hr as [Hn _]. Qed.

(** The per-artist cache is written by one step only: the end of a run whose
    merged map is not empty and sorts without error.  The exits through an
    empty overview, an abort, an empty map or the catch block leave it as it
    was. *)
Lemma resume_cache t s st :
  discographyReleaseCache (fst (resume t s st)) = discographyReleaseCache st
  \/ exists artistId releasesMap sorted,
       t = AwaitPaged artistId releasesMap (Ok tt)
       /\ releasesMap <> []
       /\ array_sort compare_releases (values releasesMap) = Ok sorted
       /\ snd (resume t s st) = FetchResolved sorted
       /\ discographyReleaseCache (fst (resume t s st))
          = <[artistId := sorted]> (discographyReleaseCache st).
Proof.
  destruct t; simpl; unfold_controller; split_cases; simpl; auto.
  all: right; match goal with u : unit |- _ => destruct u end.
  all: eexists _, _, _; split; [reflexivity|].
  all: split; [by destruct releasesMap|]; split; [eassumption|]; by split.
Qed.

(** C5: in every reachable state, a call for an artist whose list is cached
    settles at once with exactly the cached list, and leaves the module
    state as it was: no request is issued and the phase does not move. *)
Theorem cached_artist_returns_cached_list
    (sys : System) (artistId : string) (cached : list DiscographyRelease) :
  reachable sys ->
  discographyReleaseCache (state sys) !! artistId = Some cached ->
  step sys (CallFetch artistId)
  = mkSystem (state sys) (tasks sys ++ [FetchResolved cached]).
Proof.
  intros Hr Hc. apply reachable_invariant in Hr as [Hn _].
  simpl. unfold spawn, fetchDiscographyForArtist. rewrite Hn, Hc. done.
Qed.

(** C9: in every reachable state, hydrating an album whose detail is cached
    settles at once with the projection of the cached detail, and leaves the
    module state as it was: no request is issued and no delay is started.
    The projection has the album id as its [id], the "spotify:album:" uri of
    that id as its [uri], the [name], [release_date] and [album_type] of the
    cached detail (the id, respectively the empty string, where the detail
    has none), and the [url] of the detail's first image, if any. *)
Theorem cached_album_hydrates_without_fetch_or_delay
    (sys : System) (albumId : string) (cached : json) :
  reachable sys ->
  albumCache (state sys) !! albumId = Some cached ->
  step sys (CallHydrate albumId)
  = mkSystem (state sys)
      (tasks sys
       ++ [HydrateSettled
             (Ok (Some
                {| id := JStr albumId;
                   name := get cached "name" ||| JStr albumId;
                   release_date := get cached "release_date" ||| JStr "";
                   album_type := get cached "album_type" ||| JStr "";
                   uri := JStr ("spotify:album:" +:+ albumId);
                   imageUrl := get (get0 (get cached "images")) "url" ||| JStr "" |}))]).
Proof.
  intros Hr Hc. apply reachable_invariant in Hr as [_ Ht].
  specialize (Ht _ _ Hc).
  simpl. unfold spawn, hydrateAlbumDetails. rewrite Hc.
  by destruct cached.
Qed.

(** Since [activeArtistId] is [null] whenever a call starts, neither the
    supersede guard (line 324) nor the same-artist guard (line 338) ever
    fires: a call for an artist that is not cached starts a pipeline. *)
Lemma uncached_call_starts_pipeline sys artistId :
  reachable sys ->
  cosmosAvailable = true ->
  discographyReleaseCache (state sys) !! artistId = None ->
  step sys (CallFetch artistId)
  = mkSystem
      (emit (CosmosGet (artistview_url artistId))
            (transitionPhase ARTISTVIEW
               (reset (with_activeArtistId (Some artistId) (state sys)))))
      (tasks sys ++ [AwaitArtistViewGet artistId]).
Proof.
  intros Hr Hc Hmiss. apply reachable_invariant in Hr as [Hn _].
  simpl. unfold spawn, fetchDiscographyForArtist. rewrite Hn, Hmiss.
  cbn. unfold fetchArtistView, assertPhase. cbn. rewrite Hc, Hn.
  rewrite (bool_decide_eq_false_2 (None = Some artistId)) by done.
  rewrite (bool_decide_eq_true_2 (ARTISTVIEW ∈ [ARTISTVIEW])) by set_solver.
  by rewrite (bool_decide_eq_false_2 (ARTISTVIEW = ABORTED)).
Qed.

(** *** Every exit of the pipeline resets *)

Lemma resume_exit_at_rest t s st releases :
  settled t = false ->
  snd (resume t s st) = FetchResolved releases ->
  at_rest (fst (resume t s st)).
Proof.
  unfold at_rest.
  destruct t; simpl; try done; unfold_controller; split_cases; simpl; try done.
  all: intros _ _; auto.
Qed.

Lemma resume_settled t s st : settled t = true -> resume t s st = (st, t).
Proof. by destruct t. Qed.

Lemma resume_kind t s st : is_fetch_task (snd (resume t s st)) = is_fetch_task t.
Proof. destruct t; simpl; try done; unfold_controller; split_cases; done. Qed.

Lemma resume_hydrate_state t s st :
  is_fetch_task t = false ->
  phase (fst (resume t s st)) = phase st
  /\ activeArtistId (fst (resume t s st)) = activeArtistId st.
Proof. destruct t; simpl; try done; unfold_controller; split_cases; done. Qed.

Lemma drive_fetch_at_rest script : forall st t,
  (forall l, t = FetchResolved l -> at_rest st) ->
  forall l, snd (drive (st, t) script) = FetchResolved l ->
            at_rest (fst (drive (st, t) script)).
Proof.
  induction script as [|s script IH]; intros st t Hinv l; simpl.
  - apply Hinv.
  - change (fold_left _ script ?r) with (drive r script).
    destruct (resume t s st) as [st1 t1] eqn:E.
    apply IH. intros l1 ->.
    destruct (settled t) eqn:St.
    + rewrite (resume_settled _ _ _ St) in E. injection E as -> ->. by eapply Hinv.
    + pose proof (resume_exit_at_rest t s st l1 St) as Hx. rewrite E in Hx. by apply Hx.
Qed.

Lemma drive_hydrate_state script : forall st t,
  is_fetch_task t = false ->
  phase (fst (drive (st, t) script)) = phase st
  /\ activeArtistId (fst (drive (st, t) script)) = activeArtistId st.
Proof.
  induction script as [|s script IH]; intros st t Hk; simpl; [done|].
  change (fold_left _ script ?r) with (drive r script).
  destruct (resume_hydrate_state t s st Hk) as [E1 E2].
  pose proof (resume_kind t s st) as Hk'. rewrite Hk in Hk'.
  destruct (resume t s st) as [st1 t1]. simpl in *.
  destruct (IH st1 t1 Hk') as [F1 F2]. split; congruence.
Qed.

(** *** Every call settles *)

Lemma resume_steps_left t s st :
  in_loop t -> settled t = false ->
  in_loop (snd (resume t s st))
  /\ (steps_left (snd (resume t s st)) < steps_left t)%nat.
Proof.
  destruct t; simpl; try done; intros Hl _; unfold_controller; split_cases;
    simpl; repeat match goal with
                  | H : (_ <? _) = true |- _ => apply Z.ltb_lt in H
                  | H : (_ <? _) = false |- _ => apply Z.ltb_ge in H
                  end; split; try done; try lia.
Qed.

Lemma drive_settles script : forall st t,
  in_loop t -> (steps_left t <= length script)%nat ->
  settled (snd (drive (st, t) script)) = true.
Proof.
  induction script as [|s script IH]; intros st t Hl Hn; simpl in *.
  - destruct t; simpl in *; try done; lia.
  - change (fold_left _ script ?r) with (drive r script).
    destruct (settled t) eqn:St.
    + rewrite (resume_settled _ _ _ St). apply IH; [done|].
      destruct t; simpl in *; try done; lia.
    + destruct (resume_steps_left t s st Hl St) as [Hl' Hlt].
      destruct (resume t s st) as [st1 t1]. simpl in *. apply IH; [done|lia].
Qed.

Lemma drive_kind script : forall st t,
  is_fetch_task (snd (drive (st, t) script)) = is_fetch_task t.
Proof.
  induction script as [|s script IH]; intros st t; simpl; [done|].
  change (fold_left _ script ?r) with (drive r script).
  pose proof (resume_kind t s st) as Hk.
  destruct (resume t s st) as [st1 t1]. simpl in *. by rewrite IH.
Qed.

Lemma fetchDiscographyForArtist_task a st :
  let t := snd (fetchDiscographyForArtist a st) in
  in_loop t /\ (steps_left t <= 7)%nat /\ is_fetch_task t = true.
Proof. unfold_controller. split_cases; simpl; repeat split; lia. Qed.

Lemma fetchDiscographyForArtist_at_rest a st l :
  at_rest st ->
  snd (fetchDiscographyForArtist a st) = FetchResolved l ->
  at_rest (fst (fetchDiscographyForArtist a st)).
Proof.
  intros [Hp Hn]. unfold at_rest. unfold_controller. rewrite Hn.
  split_cases; simpl; try done.
Qed.

(** *** The scheduler and a call that runs alone *)

Lemma run_settle_script script : forall sys i t,
  tasks sys !! i = Some t ->
  run sys (settle_script i script)
  = mkSystem (fst (drive (state sys, t) script))
             (<[i := snd (drive (state sys, t) script)]> (tasks sys)).
Proof.
  induction script as [|s script IH]; intros sys i t Hi; simpl.
  - rewrite list_insert_id by done. by destruct sys.
  - change (fold_left step ?l ?x) with (run x l).
    change (fold_left _ script ?r) with (drive r script).
    rewrite Hi.
    destruct (resume t s (state sys)) as [st1 t1] eqn:E. simpl.
    rewrite (IH _ i t1); simpl.
    + by rewrite list_insert_insert_eq.
    + apply list_lookup_insert_eq. by eapply lookup_lt_Some.
Qed.

Lemma call_alone_spec sys ev script (r0 : State * Task) :
  step sys ev = spawn sys r0 ->
  state (call_alone sys ev script) = fst (drive r0 script)
  /\ tasks (call_alone sys ev script) !! length (tasks sys)
     = Some (snd (drive r0 script)).
Proof.
  intros Hs. unfold call_alone. rewrite Hs.
  assert (Hi : tasks (spawn sys r0) !! length (tasks sys) = Some (snd r0)).
  { simpl. by rewrite list_lookup_middle. }
  rewrite (run_settle_script script _ _ _ Hi). simpl.
  destruct r0 as [st0 t0]. simpl. split; [done|].
  apply list_lookup_insert_eq. rewrite length_app. simpl. lia.
Qed.

Lemma reachable_run sys evs : reachable sys -> reachable (run sys evs).
Proof.
  intros [evs0 <-]. exists (evs0 ++ evs). unfold run. by rewrite fold_left_app.
Qed.

Lemma step_rest_invariant sys ev :
  rest_invariant sys -> rest_invariant (step sys ev).
Proof.
  unfold rest_invariant, no_pipeline_in_flight. intros Hinv.
  destruct ev as [a|a| |i s]; simpl.
  - intros Hall. apply Forall_app in Hall as [Hold Hnew].
    apply Forall_inv in Hnew.
    destruct (fetchDiscographyForArtist_task a (state sys)) as (_ & _ & Hk).
    unfold pipeline_idle in Hnew. rewrite Hk in Hnew. simpl in Hnew.
    destruct (snd (fetchDiscographyForArtist a (state sys))) eqn:E; try done.
    eapply fetchDiscographyForArtist_at_rest; eauto.
  - intros Hall. apply Forall_app in Hall as [Hold _].
    destruct (hydrateAlbumDetails_unchanged a (state sys)) as (H1 & _ & H2).
    destruct (Hinv Hold) as [I1 I2]. split; congruence.
  - intros Hall. destruct (Hinv Hall) as [I1 I2].
    unfold abortDiscographyFetch. rewrite I1. done.
  - destruct (tasks sys !! i) as [t|] eqn:Hi; simpl; [|done].
    intros Hall.
    assert (Hlt : (i < length (tasks sys))%nat) by (by eapply lookup_lt_Some).
    assert (Hnew : pipeline_idle (snd (resume t s (state sys))) = true).
    { rewrite Forall_forall in Hall. apply Hall.
      apply list_elem_of_lookup. exists i.
      by apply list_lookup_insert_eq. }
    destruct (pipeline_idle t) eqn:Ht.
    + assert (Hold : Forall (fun t => pipeline_idle t = true) (tasks sys)).
      { rewrite Forall_forall in Hall |- *. intros t' Ht'.
        apply list_elem_of_lookup in Ht' as [j Hj].
        destruct (decide (i = j)) as [->|Hne]; [congruence|].
        apply Hall, list_elem_of_lookup. exists j.
        by rewrite list_lookup_insert_ne. }
      destruct (Hinv Hold) as [I1 I2].
      unfold pipeline_idle in Ht. destruct (is_fetch_task t) eqn:Hk; simpl in Ht.
      * by rewrite (resume_settled _ _ _ Ht).
      * destruct (resume_hydrate_state t s (state sys) Hk) as [E1 E2].
        split; congruence.
    + unfold pipeline_idle in Ht, Hnew. rewrite resume_kind in Hnew.
      destruct (is_fetch_task t) eqn:Hk; simpl in Ht, Hnew; [|done].
      pose proof (resume_kind t s (state sys)) as Hk'. rewrite Hk in Hk'.
      destruct (snd (resume t s (state sys))) eqn:E; try done.
      eapply resume_exit_at_rest; eauto.
Qed.

Lemma reachable_rest_invariant sys : reachable sys -> rest_invariant sys.
Proof.
  intros [evs <-].
  assert (Hgen : forall sys0, rest_invariant sys0 -> rest_invariant (run sys0 evs)).
  { induction evs as [|ev evs IH]; intros sys0 H0; simpl; [done|].
    by apply IH, step_rest_invariant. }
  apply Hgen. by intros _.
Qed.

(** C10: take a reachable state in which no call of
    [fetchDiscographyForArtist] is in flight, and a call that then runs
    alone.  It settles within seven settlements of the promises it awaits,
    and once it has settled the phase is [IDLE] and [activeArtistId] is
    [null]. *)
Theorem call_alone_ends_idle
    (sys : System) (artistId : string) (script : list Settled) :
  reachable sys ->
  no_pipeline_in_flight sys ->
  let sys' := call_alone sys (CallFetch artistId) script in
  (forall releases,
      tasks sys' !! length (tasks sys) = Some (FetchResolved releases) ->
      phase (state sys') = IDLE /\ activeArtistId (state sys') = None)
  /\ ((7 <= length script)%nat ->
      exists releases, tasks sys' !! length (tasks sys) = Some (FetchResolved releases)).
Proof.
  intros Hreach Hidle sys'. subst sys'.
  destruct (call_alone_spec sys (CallFetch artistId) script _ eq_refl) as [E1 E2].
  split.
  - intros releases Hres. rewrite E1. rewrite E2 in Hres. injection Hres as Hres.
    destruct (fetchDiscographyForArtist artistId (state sys)) as [st0 t0] eqn:E0.
    eapply drive_fetch_at_rest; [|exact Hres].
    intros l0 ->.
    pose proof (fetchDiscographyForArtist_at_rest artistId (state sys) l0) as Hx.
    rewrite E0 in Hx. apply Hx; [|done].
    by apply (reachable_rest_invariant sys).
  - intros Hlen. rewrite E2.
    destruct (fetchDiscographyForArtist_task artistId (state sys)) as (Hl & Hn & Hk).
    destruct (fetchDiscographyForArtist artistId (state sys)) as [st0 t0]. simpl in *.
    pose proof (drive_settles script st0 t0 Hl ltac:(lia)) as Hs.
    pose proof (drive_kind script st0 t0) as Hk'. rewrite Hk in Hk'.
    destruct (snd (drive (st0, t0) script)); try done. by eexists.
Qed.

(** *** Paging *)

(** C4, as the code has it: a page without items ends the paged fetch
    whatever [next] says, and so does a rejected page request, rate limit or
    not; neither touches the module state, so the phase stays what it was.
    An abort seen at the head of the loop ends it as well.  In each case the
    map handed on is the one collected so far, and a page only ever appends
    to it. *)
Theorem paging_stops_early_and_keeps_releases
    (artistId : string) (releasesMap : ReleasesMap) (maxPages page offset : Z)
    (st : State) :
  (forall data,
      page_items data = [] ->
      page_settled artistId releasesMap maxPages page offset (Fulfilled data) st
      = (st, AwaitPaged artistId releasesMap (Ok tt)))
  /\ (forall error rateLimited,
        isRateLimitError error = Ok rateLimited ->
        page_settled artistId releasesMap maxPages page offset (Rejected error) st
        = (st, AwaitPaged artistId releasesMap (Ok tt)))
  /\ (forall error,
        isRateLimitError error = Throw ->
        page_settled artistId releasesMap maxPages page offset (Rejected error) st
        = (st, AwaitPaged artistId releasesMap Throw))
  /\ (phase st = ABORTED ->
      paged_loop artistId releasesMap maxPages page offset st
      = (st, AwaitPaged artistId releasesMap (Ok tt)))
  /\ (forall data,
        let r := page_settled artistId releasesMap maxPages page offset (Fulfilled data) st in
        phase (fst r) = phase st
        /\ exists releasesMap',
            extends releasesMap releasesMap'
            /\ (r = (st, AwaitPaged artistId releasesMap' (Ok tt))
                \/ r = (emit (Delay 5000) st,
                        AwaitPageDelay artistId releasesMap' maxPages
                                       (page + 1) (offset + limit)))).
Proof.
  split; [|split; [|split; [|split]]].
  - intros data Hi. unfold page_settled. by rewrite Hi.
  - intros error b Hb. unfold page_settled. by rewrite Hb.
  - intros error Hb. unfold page_settled. by rewrite Hb.
  - intros Ha. unfold paged_loop. rewrite Ha. simpl. by destruct (page <? maxPages).
  - intros data. simpl. unfold page_settled.
    destruct (length (page_items data) =? 0)%nat.
    { split; [done|]. exists releasesMap. split; [apply extends_refl|by left]. }
    pose proof (add_page_items_extends (page_items data) releasesMap) as Hext.
    destruct (add_page_items (page_items data) releasesMap) as [m' completed].
    simpl in Hext.
    destruct completed; simpl.
    + destruct (truthy (get data "next")); simpl.
      * split; [done|]. exists m'. split; [done|by right].
      * split; [done|]. exists m'. split; [done|by left].
    + split; [done|]. exists m'. split; [done|by left].
Qed.

(** * Further properties of the module *)

(** ** What [normalizeReleaseItem] accepts *)

Lemma lower_char_idempotent c : lower_char (lower_char c) = lower_char c.
Proof. destruct c as [[] [] [] [] [] [] [] []]; reflexivity. Qed.

Lemma toLowerCase_idempotent s : toLowerCase (toLowerCase s) = toLowerCase s.
Proof.
  induction s as [|c s IH]; simpl; [done|]. by rewrite lower_char_idempotent, IH.
Qed.

Lemma truthy_album_uri s : truthy (JStr ("spotify:album:" +:+ s)) = true.
Proof. reflexivity. Qed.

Lemma or_else_default_string a :
  truthy (a ||| JStr "") = true \/ a ||| JStr "" = JStr "".
Proof. unfold or_else. destruct (truthy a) eqn:E; [by left|by right]. Qed.

#[local] Arguments list_includes : simpl never.
#[local] Arguments is_album_uri : simpl never.

Lemma album_type_raw_lower item tag :
  album_type_raw item = Ok tag -> toLowerCase tag = tag.
Proof.
  unfold album_type_raw. destruct (to_string _) as [raw|]; cbn; [|done].
  intros [= <-]. apply toLowerCase_idempotent.
Qed.

Lemma list_includes_In l x : list_includes l x = true -> In x l.
Proof.
  unfold list_includes. intros Hin. apply existsb_exists in Hin as (y & Hy & E).
  apply String.eqb_eq in E. by subst.
Qed.

(** What an accepted item went through, and the record built from it. *)
Lemma normalizeReleaseItem_inv item r :
  normalizeReleaseItem item = Ok (Some r) ->
  exists tag uri',
    truthy (resolved_id item) = true
    /\ truthy (resolved_name item) = true
    /\ album_type_raw item = Ok tag
    /\ (In tag album_types \/ is_album_uri (resolved_uri item) = true)
    /\ (if truthy (resolved_uri item) then uri' = resolved_uri item
        else exists s, to_string (resolved_id item) = Ok s
                       /\ uri' = JStr ("spotify:album:" +:+ s))
    /\ id r = resolved_id item /\ name r = resolved_name item
    /\ album_type r = JStr tag /\ uri r = uri'
    /\ (truthy (release_date r) = true \/ release_date r = JStr "").
Proof.
  intros H. unfold normalizeReleaseItem in H.
  destruct (negb (truthy item)); [done|].
  destruct (truthy (resolved_id item)) eqn:Hid; cbn in H; [|done].
  destruct (truthy (resolved_name item)) eqn:Hname; cbn in H; [|done].
  destruct (album_type_raw item) as [tag|] eqn:Htag; cbn in H; [|done].
  destruct (negb (list_includes album_types tag) && negb (is_album_uri (resolved_uri item)))
    eqn:Hcheck; [done|].
  assert (Hpass : In tag album_types \/ is_album_uri (resolved_uri item) = true).
  { apply andb_false_iff in Hcheck as [E|E]; apply negb_false_iff in E;
      [left; by apply list_includes_In|by right]. }
  destruct (truthy (resolved_uri item)) eqn:Htr; cbn in H.
  - injection H as <-. exists tag, (resolved_uri item). cbn.
    repeat split; auto. apply or_else_default_string.
  - destruct (to_string (resolved_id item)) as [sid|] eqn:Hs; cbn in H; [|done].
    injection H as <-. exists tag, (JStr ("spotify:album:" +:+ sid)). cbn.
    repeat split; eauto. apply or_else_default_string.
Qed.

(** X1: a release that [normalizeReleaseItem] returns has a truthy id, name
    and uri, the id and name being the ones resolved from the item; its
    [album_type] is a lower-case string that is in the allow-list unless the
    uri contains "album"; its [release_date] is truthy or the empty string;
    and its uri is the item's own whenever the item has one, and else
    "spotify:album:" followed by the id. *)
Theorem normalizeReleaseItem_accepted_release (item : json) (r : DiscographyRelease) :
  normalizeReleaseItem item = Ok (Some r) ->
  well_formed_release r
  /\ id r = resolved_id item
  /\ name r = resolved_name item
  /\ (exists tag,
        album_type r = JStr tag
        /\ (In tag album_types \/ is_album_uri (resolved_uri item) = true))
  /\ (truthy (resolved_uri item) = true -> uri r = resolved_uri item)
  /\ (truthy (resolved_uri item) = false ->
      exists s, to_string (id r) = Ok s /\ uri r = JStr ("spotify:album:" +:+ s)).
Proof.
  intros H.
  destruct (normalizeReleaseItem_inv item r H)
    as (tag & uri' & Hid & Hname & Htag & Hpass & Huri & Eid & Ename & Etype & Euri & Hdate).
  assert (Htruthy_uri : truthy (uri r) = true).
  { rewrite Euri. destruct (truthy (resolved_uri item)) eqn:Htr; [by subst|].
    destruct Huri as (s & _ & ->). apply truthy_album_uri. }
  split; [|split; [done|split; [done|split; [|split]]]].
  - unfold well_formed_release. rewrite Eid, Ename.
    repeat split; try done.
    exists tag. split; [done|]. by eapply album_type_raw_lower.
  - by exists tag.
  - intros Htr. rewrite Htr in Huri. congruence.
  - intros Htr. rewrite Htr in Huri. destruct Huri as (s & Hs & ->).
    exists s. by rewrite Eid.
Qed.

Lemma In_list_includes l x : In x l -> list_includes l x = true.
Proof.
  intros Hin. unfold list_includes. apply existsb_exists. exists x.
  split; [done|apply String.eqb_refl].
Qed.

(** The converse of the inversion: an item that passes the tests is
    accepted. *)
Lemma normalizeReleaseItem_accepts item tag uri' :
  truthy item = true ->
  truthy (resolved_id item) = true ->
  truthy (resolved_name item) = true ->
  album_type_raw item = Ok tag ->
  (In tag album_types \/ is_album_uri (resolved_uri item) = true) ->
  (if truthy (resolved_uri item) then uri' = resolved_uri item
   else exists s, to_string (resolved_id item) = Ok s
                  /\ uri' = JStr ("spotify:album:" +:+ s)) ->
  exists r,
    normalizeReleaseItem item = Ok (Some r)
    /\ id r = resolved_id item /\ name r = resolved_name item
    /\ album_type r = JStr tag /\ uri r = uri'.
Proof.
  intros Hitem Hid Hname Htag Hpass Huri. unfold normalizeReleaseItem.
  rewrite Hitem, Hid, Hname, Htag. cbn.
  assert (Hcheck : negb (list_includes album_types tag)
                   && negb (is_album_uri (resolved_uri item)) = false).
  { apply andb_false_iff. destruct Hpass as [Hin|Hu].
    - left. by rewrite (In_list_includes _ _ Hin).
    - right. by rewrite Hu. }
  rewrite Hcheck.
  destruct (truthy (resolved_uri item)) eqn:Htr; cbn.
  - subst uri'. eexists. split; [reflexivity|]. by cbn.
  - destruct Huri as (s & Hs & ->). rewrite Hs. cbn.
    eexists. split; [reflexivity|]. by cbn.
Qed.

(** X2: identifier and uri stand in for each other.  An item without an
    [id] whose own [uri] has a colon and a last segment takes that segment
    as its id and keeps its uri; an item with a string id and no uri at all
    gets the uri "spotify:album:" followed by the id. *)
Theorem identifier_and_uri_stand_in_for_each_other (item : json) (tag : string) :
  truthy (resolved_name item) = true ->
  album_type_raw item = Ok tag ->
  (forall u,
      truthy (get item "id") = false ->
      get item "uri" = JStr u ->
      includes ":" u = true ->
      split_pop u <> "" ->
      In tag album_types \/ includes "album" u = true ->
      exists r,
        normalizeReleaseItem item = Ok (Some r)
        /\ id r = JStr (split_pop u) /\ uri r = JStr u)
  /\ (forall s,
        get item "id" = JStr s ->
        s <> "" ->
        truthy (resolved_uri item) = false ->
        In tag album_types ->
        exists r,
          normalizeReleaseItem item = Ok (Some r)
          /\ id r = JStr s /\ uri r = JStr ("spotify:album:" +:+ s)).
Proof.
  intros Hname Htag. split.
  - intros u Hid Huri Hcolon Hseg Hpass.
    assert (Hu : truthy (JStr u) = true).
    { destruct u; [done|reflexivity]. }
    assert (Hruri : resolved_uri item = JStr u).
    { unfold resolved_uri. rewrite Huri. unfold or_else at 3. rewrite Hu.
      unfold or_else at 2. rewrite Hu. unfold or_else. by rewrite Hu. }
    assert (Hrid : resolved_id item = JStr (split_pop u)).
    { unfold resolved_id. rewrite (or_else_falsy _ _ Hid), Hruri. cbn.
      rewrite Hcolon. unfold or_else.
      destruct (String.eqb (split_pop u) "") eqn:E; [|by cbn; rewrite E].
      apply String.eqb_eq in E. done. }
    assert (Hitem : truthy item = true).
    { destruct item; try done. }
    destruct (normalizeReleaseItem_accepts item tag (JStr u)) as (r & Hr & Eid & _ & _ & Euri).
    + done.
    + rewrite Hrid. cbn. destruct (String.eqb (split_pop u) "") eqn:E; [|done].
      apply String.eqb_eq in E. done.
    + done.
    + done.
    + rewrite Hruri. destruct Hpass as [?|Hal]; [by left|right]. exact Hal.
    + by rewrite Hruri, Hu.
    + exists r. rewrite Eid, Hrid, Euri. done.
  - intros s Hid Hs Huri Hin.
    assert (Hts : truthy (JStr s) = true).
    { destruct s; [done|reflexivity]. }
    assert (Hrid : resolved_id item = JStr s).
    { unfold resolved_id. rewrite Hid. unfold or_else at 2. rewrite Hts.
      unfold or_else. by rewrite Hts. }
    assert (Hitem : truthy item = true).
    { destruct item; try done. }
    destruct (normalizeReleaseItem_accepts item tag (JStr ("spotify:album:" +:+ s)))
      as (r & Hr & Eid & _ & _ & Euri).
    + done.
    + by rewrite Hrid.
    + done.
    + done.
    + by left.
    + rewrite Huri. exists s. by rewrite Hrid.
    + exists r. rewrite Eid, Hrid, Euri. done.
Qed.

(** X3: a value that is not an object (a string, a number, a boolean, an
    array, [null]) is never a release, whatever it holds. *)
Theorem normalizeReleaseItem_rejects_non_objects (item : json) :
  (forall fields, item <> JObj fields) -> normalizeReleaseItem item = Ok None.
Proof.
  intros Hno. destruct item as [| |b|n|s|items|fields]; try reflexivity.
  - by destruct b.
  - unfold normalizeReleaseItem. by destruct (negb (truthy (JNum n))).
  - unfold normalizeReleaseItem. by destruct (negb (truthy (JStr s))).
  - by destruct (Hno fields).
Qed.

(** ** [isRateLimitError] *)

(** X4: a rejection value that is not an object is never taken for a rate
    limit: not [null] or [undefined], and not a string either, even one that
    reads "429" or "rate limit", since a string has no [message]. *)
Theorem isRateLimitError_ignores_non_objects (err : json) :
  (forall fields, err <> JObj fields) -> isRateLimitError err = Ok false.
Proof.
  intros Hno. destruct err as [| |b|n|s|items|fields]; try reflexivity.
  by destruct (Hno fields).
Qed.

(** X5: the status tested is the first truthy one of [status],
    [response.status] and [statusCode].  With a message that mentions
    neither "429" nor "rate", an error whose [status] is truthy and is not
    the number 429 (another code, or the string "429") is not a rate limit,
    whatever [response.status] and [statusCode] say; and an error without
    [status] whose [response.status] is 429 is one. *)
Theorem isRateLimitError_first_status_decides (err : json) (message : string) :
  to_string (get err "message" ||| JStr "") = Ok message ->
  includes "429" message = false ->
  includes "rate" (toLowerCase message) = false ->
  (truthy (get err "status") = true -> get err "status" <> JNum 429 ->
   isRateLimitError err = Ok false)
  /\ (truthy (get err "status") = false ->
      get (get err "response") "status" = JNum 429 ->
      isRateLimitError err = Ok true).
Proof.
  intros Hm H429 Hrate. unfold isRateLimitError. rewrite Hm. cbn.
  rewrite H429, Hrate. split.
  - intros Htr Hne. unfold or_else at 2. rewrite Htr. unfold or_else. rewrite Htr.
    destruct (get err "status") as [| |b|n|s|items|fields]; try done.
    destruct n as [|p|p]; try done.
    destruct (decide (p = 429%positive)) as [->|Hp]; [done|].
    repeat (destruct p as [p|p|]; try done).
  - intros Hfalsy Hresp. unfold or_else at 2. rewrite Hfalsy, Hresp. by cbn.
Qed.

(** ** The sort *)

Lemma insert_sorted_permutes {A} (comparefn : A -> A -> result Z) x sorted out :
  insert_sorted comparefn x sorted = Ok out -> Permutation (x :: sorted) out.
Proof.
  revert out. induction sorted as [|e rest IH]; intros out; simpl.
  - by intros [= <-].
  - destruct (comparefn x e) as [c|]; cbn; [|done].
    destruct (c <? 0); [by intros [= <-]|].
    destruct (insert_sorted comparefn x rest) as [r|]; cbn; [|done].
    intros [= <-]. rewrite perm_swap. apply perm_skip. by apply IH.
Qed.

Lemma sort_onto_permutes {A} (comparefn : A -> A -> result Z) l : forall sorted out,
  sort_onto comparefn sorted l = Ok out -> Permutation (sorted ++ l) out.
Proof.
  induction l as [|x rest IH]; intros sorted out; simpl.
  - intros [= <-]. by rewrite app_nil_r.
  - destruct (insert_sorted comparefn x sorted) as [s1|] eqn:E; cbn; [|done].
    intros Hs. apply IH in Hs. rewrite <- Hs.
    apply insert_sorted_permutes in E. rewrite <- E.
    symmetry. apply Permutation_middle.
Qed.

Lemma insert_sorted_strings x sorted :
  is_string (release_date x) = true -> dates_are_strings sorted ->
  exists out, insert_sorted compare_releases x sorted = Ok out
              /\ dates_are_strings out.
Proof.
  intros Hx. induction sorted as [|e rest IH]; intros Hs; simpl.
  - exists [x]. split; [done|]. by constructor.
  - inversion Hs as [|? ? He Hrest]; subst.
    rewrite (compare_releases_strings x e Hx He). cbn.
    destruct (_ <? 0).
    + eexists. split; [reflexivity|]. by constructor.
    + destruct (IH Hrest) as (out & -> & Hout). cbn.
      eexists. split; [reflexivity|]. by constructor.
Qed.

Lemma sort_onto_strings l : forall sorted,
  dates_are_strings l -> dates_are_strings sorted ->
  exists out, sort_onto compare_releases sorted l = Ok out.
Proof.
  induction l as [|x rest IH]; intros sorted Hl Hs; simpl.
  - by exists sorted.
  - inversion Hl as [|? ? Hx Hrest]; subst.
    destruct (insert_sorted_strings x sorted Hx Hs) as (s1 & -> & Hs1). cbn.
    by apply IH.
Qed.

(** X6: releases whose dates are all strings never make the sort of line
    379 fail, whatever the host's collation: every call of the comparator
    returns a number, the sort returns, and its result holds exactly the
    releases it was given, each as often as before.  (In which order is the
    collation's matter.) *)
Theorem string_dates_never_fail_the_sort (l : list DiscographyRelease) :
  dates_are_strings l ->
  (forall a b, In a l -> In b l ->
               compare_releases a b = Ok (localeCompare (date_of b) (date_of a)))
  /\ exists out,
       array_sort compare_releases l = Ok out
       /\ Permutation l out /\ length out = length l.
Proof.
  intros Hl. split.
  - intros a b Ha Hb. unfold dates_are_strings in Hl.
    rewrite List.Forall_forall in Hl. by apply compare_releases_strings; apply Hl.
  - destruct (sort_onto_strings l [] Hl) as [out Hs]; [constructor|].
    exists out. split; [exact Hs|].
    apply sort_onto_permutes in Hs. simpl in Hs.
    split; [done|]. symmetry. by apply Permutation_length.
Qed.

(** X7: with two or more releases none of whose dates is a string, the
    comparator has no [localeCompare] to call on whichever release comes
    second, and the sort throws. *)
Theorem array_sort_throws_without_string_dates (l : list DiscographyRelease) :
  (2 <= length l)%nat ->
  Forall (fun r => date_is_string r = false) l ->
  array_sort compare_releases l = Throw.
Proof.
  intros Hlen Hall. destruct l as [|x [|y rest]]; simpl in Hlen; try lia.
  apply Forall_inv in Hall. unfold date_is_string in Hall.
  unfold array_sort. cbn. unfold compare_releases.
  by destruct (release_date x).
Qed.

(** ** Requests and delays *)

#[local] Arguments requests : simpl never.
#[local] Arguments delays_started : simpl never.

Lemma requests_app l1 l2 : requests (l1 ++ l2) = (requests l1 + requests l2)%nat.
Proof. unfold requests. by rewrite List.filter_app, length_app. Qed.

Lemma delays_started_app l1 l2 :
  delays_started (l1 ++ l2) = (delays_started l1 + delays_started l2)%nat.
Proof. unfold delays_started. by rewrite List.filter_app, length_app. Qed.

Lemma fetch_calls_app l1 l2 : fetch_calls (l1 ++ l2) = (fetch_calls l1 + fetch_calls l2)%nat.
Proof. unfold fetch_calls. by rewrite List.filter_app, length_app. Qed.

Lemma hydrate_calls_app l1 l2 :
  hydrate_calls (l1 ++ l2) = (hydrate_calls l1 + hydrate_calls l2)%nat.
Proof. unfold hydrate_calls. by rewrite List.filter_app, length_app. Qed.

Ltac count_effects :=
  rewrite ?requests_app, ?delays_started_app;
  change (requests [CosmosGet _]) with 1%nat;
  change (requests [Delay _]) with 0%nat;
  change (requests [PhaseChange _ _]) with 0%nat;
  change (delays_started [CosmosGet _]) with 0%nat;
  change (delays_started [Delay _]) with 1%nat;
  change (delays_started [PhaseChange _ _]) with 0%nat.

Lemma total_app f l1 l2 : total f (l1 ++ l2) = (total f l1 + total f l2)%nat.
Proof. unfold total. apply sum_list_with_app. Qed.

Lemma total_insert f (l : list Task) i x y :
  l !! i = Some x ->
  (total f (<[i := y]> l) + f x = total f l + f y)%nat.
Proof.
  revert i. induction l as [|z l IH]; intros [|i] Hi; simpl in *; try done.
  - injection Hi as ->. unfold total. simpl. lia.
  - specialize (IH i Hi). unfold total in *. simpl. lia.
Qed.

Lemma run_snoc sys evs ev : run sys (evs ++ [ev]) = step (run sys evs) ev.
Proof. unfold run. by rewrite fold_left_app. Qed.

Lemma resume_requests t s st :
  (requests (effects (fst (resume t s st))) + requests_left (snd (resume t s st))
   <= requests (effects st) + requests_left t)%nat.
Proof.
  destruct t; simpl; unfold_controller; split_cases; cbn; count_effects;
    repeat match goal with
           | H : (_ <? _) = true |- _ => apply Z.ltb_lt in H
           | H : (_ <? _) = false |- _ => apply Z.ltb_ge in H
           end; try lia.
Qed.

Lemma fetchDiscographyForArtist_requests a st :
  (requests (effects (fst (fetchDiscographyForArtist a st)))
   + requests_left (snd (fetchDiscographyForArtist a st))
   <= requests (effects st) + 3)%nat.
Proof. unfold_controller. split_cases; cbn; count_effects; lia. Qed.

Lemma hydrateAlbumDetails_requests a st :
  (requests (effects (fst (hydrateAlbumDetails a st)))
   + requests_left (snd (hydrateAlbumDetails a st))
   <= requests (effects st) + 1)%nat.
Proof. unfold_controller. split_cases; cbn; count_effects; lia. Qed.

Lemma abortDiscographyFetch_effects st :
  requests (effects (abortDiscographyFetch st)) = requests (effects st)
  /\ delays_started (effects (abortDiscographyFetch st)) = delays_started (effects st).
Proof. unfold_controller. split_cases; cbn; count_effects; lia. Qed.

Lemma total_single f t : total f [t] = f t.
Proof. unfold total. simpl. lia. Qed.

Ltac count_calls :=
  rewrite ?fetch_calls_app, ?hydrate_calls_app;
  change (fetch_calls [CallFetch _]) with 1%nat;
  change (fetch_calls [CallHydrate _]) with 0%nat;
  change (fetch_calls [CallAbort]) with 0%nat;
  change (fetch_calls [Settle _ _]) with 0%nat;
  change (hydrate_calls [CallFetch _]) with 0%nat;
  change (hydrate_calls [CallHydrate _]) with 1%nat;
  change (hydrate_calls [CallAbort]) with 0%nat;
  change (hydrate_calls [Settle _ _]) with 0%nat.

Lemma request_budget_invariant evs :
  let sys := run initial_system evs in
  (requests (effects (state sys)) + total requests_left (tasks sys)
   <= 3 * fetch_calls evs + hydrate_calls evs)%nat.
Proof.
  induction evs as [|ev evs IH] using rev_ind; [vm_compute; lia|].
  cbn zeta in *. rewrite run_snoc.
  set (sys := run initial_system evs) in *.
  destruct ev as [a|a| |i s]; count_calls; cbn [step spawn state tasks].
  - pose proof (fetchDiscographyForArtist_requests a (state sys)).
    rewrite total_app, total_single. lia.
  - pose proof (hydrateAlbumDetails_requests a (state sys)).
    rewrite total_app, total_single. lia.
  - destruct (abortDiscographyFetch_effects (state sys)) as [-> _]. lia.
  - destruct (tasks sys !! i) as [t|] eqn:Hi; cbn [state tasks]; [|lia].
    pose proof (resume_requests t s (state sys)).
    pose proof (total_insert requests_left _ i t (snd (resume t s (state sys))) Hi).
    lia.
Qed.

(** X8: whatever the schedule, the module issues at most three requests per
    call of [fetchDiscographyForArtist] (the overview and two album pages)
    and one per call of [hydrateAlbumDetails]. *)
Theorem request_budget (evs : list Event) :
  (requests (effects (state (run initial_system evs)))
   <= 3 * fetch_calls evs + hydrate_calls evs)%nat.
Proof. pose proof (request_budget_invariant evs) as H. cbn zeta in H. lia. Qed.

Lemma resume_pacing t s st :
  (requests (effects (fst (resume t s st))) + unpaced_left (snd (resume t s st))
   + delays_started (effects st)
   <= requests (effects st) + unpaced_left t
      + delays_started (effects (fst (resume t s st))))%nat.
Proof.
  destruct t; simpl; unfold_controller; split_cases; cbn; count_effects; lia.
Qed.

Lemma fetchDiscographyForArtist_pacing a st :
  (requests (effects (fst (fetchDiscographyForArtist a st)))
   + unpaced_left (snd (fetchDiscographyForArtist a st))
   + delays_started (effects st)
   <= requests (effects st) + 2
      + delays_started (effects (fst (fetchDiscographyForArtist a st))))%nat.
Proof. unfold_controller. split_cases; cbn; count_effects; lia. Qed.

Lemma hydrateAlbumDetails_pacing a st :
  (requests (effects (fst (hydrateAlbumDetails a st)))
   + unpaced_left (snd (hydrateAlbumDetails a st))
   + delays_started (effects st)
   <= requests (effects st)
      + delays_started (effects (fst (hydrateAlbumDetails a st))))%nat.
Proof. unfold_controller. split_cases; cbn; count_effects; lia. Qed.

Lemma pacing_invariant evs :
  let sys := run initial_system evs in
  (requests (effects (state sys)) + total unpaced_left (tasks sys)
   <= 2 * fetch_calls evs + delays_started (effects (state sys)))%nat.
Proof.
  induction evs as [|ev evs IH] using rev_ind; [vm_compute; lia|].
  cbn zeta in *. rewrite run_snoc.
  set (sys := run initial_system evs) in *.
  destruct ev as [a|a| |i s]; count_calls; cbn [step spawn state tasks].
  - pose proof (fetchDiscographyForArtist_pacing a (state sys)).
    rewrite total_app, total_single. lia.
  - pose proof (hydrateAlbumDetails_pacing a (state sys)).
    rewrite total_app, total_single. lia.
  - destruct (abortDiscographyFetch_effects (state sys)) as [-> ->]. lia.
  - destruct (tasks sys !! i) as [t|] eqn:Hi; cbn [state tasks]; [|lia].
    pose proof (resume_pacing t s (state sys)).
    pose proof (total_insert unpaced_left _ i t (snd (resume t s (state sys))) Hi).
    lia.
Qed.

(** X9: whatever the schedule, every request beyond the first two of a
    pipeline (its overview and its first album page) was paid for by a
    delay started before it: the requests issued number at most twice the
    calls of [fetchDiscographyForArtist] plus the delays started. *)
Theorem requests_are_paced (evs : list Event) :
  (requests (effects (state (run initial_system evs)))
   <= 2 * fetch_calls evs
      + delays_started (effects (state (run initial_system evs))))%nat.
Proof. pose proof (pacing_invariant evs) as H. cbn zeta in H. lia. Qed.

(** ** What the module does and which phases it shows *)

Lemma expected_effects_snoc l e :
  Forall expected_effect l -> expected_effect e -> Forall expected_effect (l ++ [e]).
Proof. intros Hl He. apply Forall_app. split; [done|]. by constructor. Qed.

Ltac expected :=
  repeat match goal with
         | |- Forall expected_effect (_ ++ [_]) => apply expected_effects_snoc
         | |- expected_effect (CosmosGet (artistview_url _)) => left; by eexists
         | |- expected_effect (CosmosGet (album_url _)) => do 3 right; by eexists
         | |- expected_effect (PhaseChange _ DONE) => right; by left
         | |- expected_effect (PhaseChange _ ABORTED) => right; by right
         | |- expected_effect (PhaseChange IDLE ARTISTVIEW) => by left
         | |- expected_effect (Delay 5000) => by left
         | |- expected_effect (Delay 30000) => by right
         end.

Lemma resume_expected t s st :
  Forall expected_effect (effects st) -> page_position t ->
  Forall expected_effect (effects (fst (resume t s st)))
  /\ page_position (snd (resume t s st)).
Proof.
  intros He Hp.
  destruct t; simpl in *; unfold_controller; split_cases; cbn; split; expected;
    try done.
  - right; left. by eexists.
  - split; [done|by left].
  - destruct Hp as [-> [[-> ->]|[-> ->]]]; (split; [done|]); [by left|by right].
  - destruct Hp as [-> [[-> ->]|[-> ->]]]; [|done].
    right; right; left. by eexists.
  - destruct Hp as [-> [[-> ->]|[-> ->]]]; [|done]. split; [done|by right].
Qed.

Lemma fetchDiscographyForArtist_expected a st :
  Forall expected_effect (effects st) ->
  Forall expected_effect (effects (fst (fetchDiscographyForArtist a st)))
  /\ page_position (snd (fetchDiscographyForArtist a st)).
Proof. intros He. unfold_controller. split_cases; cbn; split; expected; done. Qed.

Lemma hydrateAlbumDetails_expected a st :
  Forall expected_effect (effects st) ->
  Forall expected_effect (effects (fst (hydrateAlbumDetails a st)))
  /\ page_position (snd (hydrateAlbumDetails a st)).
Proof. intros He. unfold_controller. split_cases; cbn; split; expected; done. Qed.

Lemma step_expected sys ev :
  Forall expected_effect (effects (state sys)) /\ Forall page_position (tasks sys) ->
  Forall expected_effect (effects (state (step sys ev)))
  /\ Forall page_position (tasks (step sys ev)).
Proof.
  intros [He Hp]. destruct ev as [a|a| |i s]; cbn [step spawn state tasks].
  - destruct (fetchDiscographyForArtist_expected a _ He) as [H1 H2].
    split; [done|]. apply Forall_app. split; [done|by constructor].
  - destruct (hydrateAlbumDetails_expected a _ He) as [H1 H2].
    split; [done|]. apply Forall_app. split; [done|by constructor].
  - split; [|done]. unfold_controller. split_cases; cbn; expected; done.
  - destruct (tasks sys !! i) as [t|] eqn:Hi; cbn [state tasks]; [|done].
    assert (Ht : page_position t).
    { rewrite Forall_forall in Hp. apply Hp, list_elem_of_lookup. by exists i. }
    destruct (resume_expected t s _ He Ht) as [H1 H2].
    split; [done|]. by apply Forall_insert.
Qed.

(** X10: in every reachable state, whatever was requested is an artist
    overview, an album page of 50 at offset 0 or 50, or one album; whatever
    delay was started lasts 5000 or 30000 ms; and whatever phase change was
    logged leads from [IDLE] to [ARTISTVIEW], or to [DONE], or to
    [ABORTED]. *)
Theorem effects_are_the_expected_ones (sys : System) :
  reachable sys -> Forall expected_effect (effects (state sys)).
Proof.
  intros [evs <-].
  assert (Hgen : forall sys0,
             Forall expected_effect (effects (state sys0))
             /\ Forall page_position (tasks sys0) ->
             Forall expected_effect (effects (state (run sys0 evs)))
             /\ Forall page_position (tasks (run sys0 evs))).
  { induction evs as [|ev evs IH]; intros sys0 H0; simpl; [done|].
    by apply IH, step_expected. }
  apply Hgen. split; constructor.
Qed.

Lemma resume_observable_phase t s st :
  observable_phase (phase st) -> observable_phase (phase (fst (resume t s st))).
Proof.
  unfold observable_phase. intros Hp.
  destruct t; simpl; unfold_controller; split_cases; cbn; first [exact Hp|auto].
  match goal with H : bool_decide (DONE ≠ ABORTED) = false |- _ => by vm_compute in H end.
Qed.

Lemma fetchDiscographyForArtist_observable_phase a st :
  observable_phase (phase st) ->
  observable_phase (phase (fst (fetchDiscographyForArtist a st))).
Proof.
  unfold observable_phase. intros Hp.
  unfold_controller. split_cases; cbn; first [exact Hp|auto].
Qed.

Lemma step_observable_phase sys ev :
  observable_phase (phase (state sys)) ->
  observable_phase (phase (state (step sys ev))).
Proof.
  intros Hp. destruct ev as [a|a| |i s]; cbn [step spawn state tasks].
  - by apply fetchDiscographyForArtist_observable_phase.
  - destruct (hydrateAlbumDetails_unchanged a (state sys)) as (_ & _ & ->). done.
  - unfold observable_phase in *. unfold_controller.
    split_cases; cbn; first [exact Hp|auto].
  - destruct (tasks sys !! i) as [t|]; cbn [state]; [|done].
    by apply resume_observable_phase.
Qed.

Lemma reachable_observable_phase sys :
  reachable sys -> observable_phase (phase (state sys)).
Proof.
  intros [evs <-].
  assert (Hgen : forall sys0, observable_phase (phase (state sys0)) ->
                              observable_phase (phase (state (run sys0 evs)))).
  { induction evs as [|ev evs IH]; intros sys0 H0; simpl; [done|].
    by apply IH, step_observable_phase. }
  apply Hgen. by left.
Qed.

(** X11: between two synchronous stretches the phase is [IDLE],
    [ARTISTVIEW] or [ABORTED]: [DONE] is overwritten before anyone can see
    it, and [COOLDOWN] and [HYDRATING] are never entered.  So in every
    reachable state [cooldown] and [hydrateAlbumsBatch] fail their phase
    guard at once and do nothing, and [getDiscographyStatus] reports no
    active artist. *)
Theorem only_three_phases_are_observable (sys : System) :
  reachable sys ->
  (phase (state sys) = IDLE \/ phase (state sys) = ARTISTVIEW
   \/ phase (state sys) = ABORTED)
  /\ (forall startTime now,
        cooldown startTime now (state sys) = (state sys, CooldownSettled Throw))
  /\ (forall albumIds batchSize delayMs,
        hydrateAlbumsBatch albumIds batchSize delayMs (state sys)
        = (state sys, BatchSettled Throw))
  /\ getDiscographyStatus (state sys)
     = (phase (state sys), None, length (currentReleases (state sys))).
Proof.
  intros Hr. pose proof (reachable_observable_phase sys Hr) as Hp.
  pose proof (activeArtistId_always_null sys Hr) as Hn.
  split; [exact Hp|]. split; [|split].
  - intros startTime now. unfold cooldown, assertPhase.
    destruct Hp as [-> | [-> | ->]]; reflexivity.
  - intros albumIds batchSize delayMs. unfold hydrateAlbumsBatch, assertPhase.
    destruct Hp as [-> | [-> | ->]]; reflexivity.
  - unfold getDiscographyStatus. by rewrite Hn.
Qed.

(** ** The lists the module returns and caches *)

Lemma normalizeReleaseItem_well_formed item r :
  normalizeReleaseItem item = Ok (Some r) -> well_formed_release r.
Proof.
  intros H.
  destruct (normalizeReleaseItem_inv item r H)
    as (tag & uri' & Hid & Hname & Htag & _ & Huri & Eid & Ename & Etype & Euri & Hdate).
  unfold well_formed_release. rewrite Eid, Ename, Euri.
  split; [done|]. split; [done|]. split.
  - destruct (truthy (resolved_uri item)) eqn:Htr; [by subst|].
    destruct Huri as (s & _ & ->). apply truthy_album_uri.
  - split; [|done]. exists tag. split; [done|]. by eapply album_type_raw_lower.
Qed.

Lemma good_map_nil : good_map [].
Proof. split; [constructor|done]. Qed.

Lemma good_list_nil : good_list [].
Proof. split; [constructor|done]. Qed.

Lemma collectReleasesDeep_good (value : json) m :
  collectReleasesDeep value [] 0 = Ok m -> good_map m.
Proof.
  intros E. split.
  - apply List.Forall_forall. intros e He.
    destruct (collect_within_sound _ _ _ _ _ E e He) as [[]|(k & c & r & _ & _ & Hr & ->)].
    split; [done|]. by eapply normalizeReleaseItem_well_formed.
  - by apply (collect_within_distinct _ _ _ _ _ E).
Qed.

Lemma add_if_absent_good m item release :
  normalizeReleaseItem item = Ok release -> good_map m -> good_map (add_if_absent m release).
Proof.
  intros Hn [Hall Hd]. split; [|by apply add_if_absent_distinct].
  apply List.Forall_forall. intros e He.
  apply add_if_absent_In in He as [He|(r & -> & ->)].
  - rewrite List.Forall_forall in Hall. by apply Hall.
  - split; [done|]. by eapply normalizeReleaseItem_well_formed.
Qed.

Lemma add_page_items_good items m :
  good_map m -> good_map (fst (add_page_items items m)).
Proof.
  revert m. induction items as [|x rest IH]; intros m Hm; simpl; [done|].
  unfold add_page_items; fold add_page_items.
  destruct (normalizeReleaseItem x) as [r|] eqn:E; simpl; [|done].
  apply IH. by eapply add_if_absent_good.
Qed.

Lemma ids_distinct_permutation l l' :
  Permutation l l' -> ids_distinct l -> ids_distinct l'.
Proof.
  induction 1 as [|x l l' Hp IH|x y l|l1 l2 l3 H12 IH12 H23 IH23]; simpl.
  - done.
  - intros [Hx Hd]. split; [|by apply IH]. by apply (Permutation_Forall Hp).
  - intros [Hy [Hx Hd]]. apply Forall_cons_1 in Hy as [Hxy Hy].
    split; [|split; [done|done]].
    constructor; [|done]. by rewrite same_value_zero_sym.
  - auto.
Qed.

Lemma good_map_values m : good_map m -> good_list (values m).
Proof.
  intros [Hall Hd]. split.
  - unfold values. apply List.Forall_forall. intros r Hr.
    apply in_map_iff in Hr as (e & <- & He).
    rewrite List.Forall_forall in Hall. by apply Hall.
  - induction m as [|[k v] m IH]; simpl; [done|].
    apply Forall_cons_1 in Hall as [[Hk _] Hall]. simpl in Hk, Hd.
    destruct Hd as [Hhas Hd]. split; [|by apply IH].
    unfold values. apply List.Forall_forall. intros r Hr.
    apply in_map_iff in Hr as ([k' v'] & <- & He). simpl.
    assert (Hk' : k' = id v').
    { rewrite List.Forall_forall in Hall. by destruct (Hall _ He) as [? _]. }
    subst k k'. unfold has in Hhas.
    destruct (same_value_zero (id v') (id v)) eqn:Es; [|done].
    exfalso. apply not_true_iff_false in Hhas. apply Hhas.
    apply existsb_exists. by exists (id v', v').
Qed.

Lemma sorted_good m sorted :
  good_map m -> m <> [] ->
  array_sort compare_releases (values m) = Ok sorted ->
  sorted <> [] /\ good_list sorted.
Proof.
  intros Hm Hne Hs. apply sort_onto_permutes in Hs. simpl in Hs.
  destruct (good_map_values m Hm) as [Hwf Hd]. split.
  - intros ->. apply Permutation_nil_r in Hs. by destruct m.
  - split; [by apply (Permutation_Forall Hs)|by apply (ids_distinct_permutation _ _ Hs)].
Qed.

Lemma pipeline_finally_lists ret st :
  state_lists_ok st -> good_list ret ->
  state_lists_ok (fst (pipeline_finally ret st))
  /\ task_lists_ok (snd (pipeline_finally ret st)).
Proof.
  intros Hst Hret. unfold pipeline_finally. split; [|done].
  by destruct (bool_decide (phase st ≠ ABORTED)).
Qed.

Lemma pipeline_catch_lists st :
  state_lists_ok st ->
  state_lists_ok (fst (pipeline_catch st)) /\ task_lists_ok (snd (pipeline_catch st)).
Proof.
  intros Hst. unfold pipeline_catch. apply pipeline_finally_lists; [done|].
  by destruct Hst.
Qed.

Lemma paged_loop_lists a m maxPages page offset st :
  state_lists_ok st -> good_map m ->
  state_lists_ok (fst (paged_loop a m maxPages page offset st))
  /\ task_lists_ok (snd (paged_loop a m maxPages page offset st)).
Proof. intros Hst Hm. unfold paged_loop. split_cases; by split. Qed.

Lemma resume_lists t s st :
  state_lists_ok st -> task_lists_ok t ->
  state_lists_ok (fst (resume t s st)) /\ task_lists_ok (snd (resume t s st)).
Proof.
  intros Hst Ht. destruct t; simpl in *.
  - unfold fetchArtistView_settled. split_cases; by split.
  - unfold after_artistView. destruct r as [v|]; [|by apply pipeline_catch_lists].
    destruct (negb (truthy v) || _).
    { apply pipeline_finally_lists; [done|apply good_list_nil]. }
    destruct (collectReleasesDeep v [] 0) as [m|] eqn:E;
      [|by apply pipeline_catch_lists].
    apply collectReleasesDeep_good in E. unfold fetchArtistAlbumsPaged.
    destruct (negb cosmosAvailable); [by split|]. by apply paged_loop_lists.
  - unfold page_settled. destruct s as [data|error].
    + destruct (length (page_items data) =? 0)%nat; [by split|].
      pose proof (add_page_items_good (page_items data) releasesMap Ht) as Hg.
      destruct (add_page_items (page_items data) releasesMap) as [m' completed].
      simpl in Hg. split_cases; by split.
    + split_cases; by split.
  - by apply paged_loop_lists.
  - unfold after_paged. destruct r as [[]|]; [|by apply pipeline_catch_lists].
    destruct (size releasesMap =? 0)%nat eqn:Hsize.
    { apply pipeline_finally_lists; [done|apply good_list_nil]. }
    destruct (array_sort compare_releases (values releasesMap)) as [sorted|] eqn:Hs;
      [|by apply pipeline_catch_lists].
    destruct (sorted_good releasesMap sorted Ht) as [Hne Hgood]; [|done|].
    { intros ->. done. }
    apply pipeline_finally_lists; [|done].
    destruct Hst as [_ Hcache]. split; [done|]. cbn. intros a l.
    rewrite lookup_insert. case_decide; [intros [= <-]; by split|apply Hcache].
  - by split.
  - unfold hydrate_delayed. split_cases; by split.
  - unfold hydrate_settled. destruct s as [album|error].
    + destruct (truthy album); [|by split].
      destruct (to_string (get album "name")); by split.
    + destruct (isRateLimitError error); by split.
  - by split.
Qed.

Lemma fetchDiscographyForArtist_lists a st :
  state_lists_ok st ->
  state_lists_ok (fst (fetchDiscographyForArtist a st))
  /\ task_lists_ok (snd (fetchDiscographyForArtist a st)).
Proof.
  intros [Hcur Hcache]. unfold fetchDiscographyForArtist.
  set (st1 := match activeArtistId st with
              | Some active => _
              | None => st
              end).
  assert (H1 : state_lists_ok st1).
  { subst st1. destruct (activeArtistId st); [|by split].
    destruct (_ && _); by split. }
  destruct H1 as [Hcur1 Hcache1].
  destruct (discographyReleaseCache st1 !! a) as [cached|] eqn:Hc.
  - split; [by split|]. by destruct (Hcache1 _ _ Hc).
  - destruct (_ && _); [by split|].
    unfold fetchArtistView. split_cases; by split.
Qed.

Lemma step_lists sys ev :
  state_lists_ok (state sys) /\ Forall task_lists_ok (tasks sys) ->
  state_lists_ok (state (step sys ev)) /\ Forall task_lists_ok (tasks (step sys ev)).
Proof.
  intros [Hst Ht]. destruct ev as [a|a| |i s]; cbn [step spawn state tasks].
  - destruct (fetchDiscographyForArtist_lists a _ Hst) as [H1 H2].
    split; [done|]. apply Forall_app. split; [done|by constructor].
  - split.
    + unfold hydrateAlbumDetails. split_cases; done.
    + apply Forall_app. split; [done|]. constructor; [|done].
      unfold hydrateAlbumDetails. split_cases; done.
  - split; [|done]. unfold abortDiscographyFetch. split_cases; done.
  - destruct (tasks sys !! i) as [t|] eqn:Hi; cbn [state tasks]; [|done].
    assert (Hti : task_lists_ok t).
    { rewrite Forall_forall in Ht. apply Ht, list_elem_of_lookup. by exists i. }
    destruct (resume_lists t s _ Hst Hti) as [H1 H2].
    split; [done|]. by apply Forall_insert.
Qed.

Lemma reachable_lists sys :
  reachable sys -> state_lists_ok (state sys) /\ Forall task_lists_ok (tasks sys).
Proof.
  intros [evs <-].
  assert (Hgen : forall sys0,
             state_lists_ok (state sys0) /\ Forall task_lists_ok (tasks sys0) ->
             state_lists_ok (state (run sys0 evs))
             /\ Forall task_lists_ok (tasks (run sys0 evs))).
  { induction evs as [|ev evs IH]; intros sys0 H0; simpl; [done|].
    by apply IH, step_lists. }
  apply Hgen. split; [|constructor]. split; [apply good_list_nil|].
  intros a l. cbn. by rewrite lookup_empty.
Qed.

(** X12: in every reachable state, every list a call of
    [fetchDiscographyForArtist] has resolved with, every list in the
    per-artist cache and [currentReleases] consist of releases with a truthy
    id, name and uri and a lower-case [album_type], no two of them with the
    same id; and a cached list is never empty. *)
Theorem returned_and_cached_lists_are_well_formed (sys : System) :
  reachable sys ->
  (forall i l, tasks sys !! i = Some (FetchResolved l) ->
               Forall well_formed_release l /\ ids_distinct l)
  /\ (forall a l, discographyReleaseCache (state sys) !! a = Some l ->
                  l <> [] /\ Forall well_formed_release l /\ ids_distinct l)
  /\ Forall well_formed_release (currentReleases (state sys))
  /\ ids_distinct (currentReleases (state sys)).
Proof.
  intros Hr. destruct (reachable_lists sys Hr) as [[Hcur Hcache] Htasks].
  split; [|split; [|exact Hcur]].
  - intros i l Hi. rewrite Forall_forall in Htasks.
    apply (Htasks (FetchResolved l)), list_elem_of_lookup. by exists i.
  - intros a l Ha. destruct (Hcache a l Ha) as [Hne [Hwf Hd]]. done.
Qed.

(** ** The caches only grow *)

Lemma keeps_entries_refl st : keeps_entries st st.
Proof. by split. Qed.

Lemma keeps_entries_trans st1 st2 st3 :
  keeps_entries st1 st2 -> keeps_entries st2 st3 -> keeps_entries st1 st3.
Proof. intros [A1 B1] [A2 B2]. split; intros a H; auto. Qed.

Lemma resume_keeps_entries t s st : keeps_entries st (fst (resume t s st)).
Proof.
  split; intros a Ha.
  - destruct (resume_cache t s st) as [->|(a' & m & sorted & _ & _ & _ & _ & ->)];
      [done|].
    rewrite lookup_insert. by case_decide.
  - destruct t; simpl; try done.
    all: unfold_controller; split_cases; simpl; try done.
    all: rewrite lookup_insert; by case_decide.
Qed.

Lemma step_keeps_entries sys ev : keeps_entries (state sys) (state (step sys ev)).
Proof.
  destruct ev as [a|a| |i s]; cbn [step spawn state].
  - split; intros k Hk.
    + unfold_controller. split_cases; simpl; done.
    + by rewrite fetchDiscographyForArtist_albumCache.
  - split; intros k Hk; unfold_controller; split_cases; simpl; done.
  - split; intros k Hk; unfold_controller; split_cases; simpl; done.
  - destruct (tasks sys !! i) as [t|]; cbn [state]; [|apply keeps_entries_refl].
    apply resume_keeps_entries.
Qed.

Lemma run_keeps_entries evs : forall sys, keeps_entries (state sys) (state (run sys evs)).
Proof.
  induction evs as [|ev evs IH]; intros sys; simpl; [apply keeps_entries_refl|].
  eapply keeps_entries_trans; [apply step_keeps_entries|apply IH].
Qed.

(** X13: nothing is ever evicted or invalidated.  An artist that is cached
    in a reachable state is served from the cache after every further
    schedule: the call settles at once with a list that is not empty and
    leaves the module as it was, without a request.  The same holds for a
    cached album and [hydrateAlbumDetails]. *)
Theorem cached_entries_are_never_dropped (sys : System) (evs : list Event) :
  reachable sys ->
  (forall a, is_Some (discographyReleaseCache (state sys) !! a) ->
     exists l, l <> []
       /\ step (run sys evs) (CallFetch a)
          = mkSystem (state (run sys evs)) (tasks (run sys evs) ++ [FetchResolved l]))
  /\ (forall a, is_Some (albumCache (state sys) !! a) ->
     exists cached,
       step (run sys evs) (CallHydrate a)
       = mkSystem (state (run sys evs))
           (tasks (run sys evs)
            ++ [HydrateSettled (Ok (Some (cached_release a cached)))])).
Proof.
  intros Hr. pose proof (reachable_run sys evs Hr) as Hr'.
  destruct (run_keeps_entries evs sys) as [Hd Ha].
  destruct (reachable_invariant _ Hr') as [Hn Ht].
  destruct (reachable_lists _ Hr') as [[_ Hcache] _].
  split; intros a Hsome.
  - destruct (Hd a Hsome) as [l Hl]. exists l. split; [by apply (Hcache a)|].
    cbn [step]. unfold spawn, fetchDiscographyForArtist. by rewrite Hn, Hl.
  - destruct (Ha a Hsome) as [cached Hc]. exists cached.
    specialize (Ht _ _ Hc). cbn [step]. unfold spawn, hydrateAlbumDetails.
    rewrite Hc. by destruct cached.
Qed.

(** ** Runs that are aborted, fail or find nothing *)

(** Tests on phases and counters that are known are decided by
    computation. *)
Ltac decide_tests :=
  repeat match goal with
         | |- context [@bool_decide ?P ?d] =>
             let b := eval vm_compute in (@bool_decide P d) in
             match b with true => idtac | false => idtac end;
             change (@bool_decide P d) with b
         | |- context [(?x <? ?y)] =>
             let b := eval vm_compute in (x <? y) in
             match b with true => idtac | false => idtac end;
             change (x <? y) with b
         end.

Ltac evaluate := repeat first [progress cbn | progress decide_tests].

Lemma step_settle_last st ts t s :
  step (mkSystem st (ts ++ [t])) (Settle (length ts) s)
  = mkSystem (fst (resume t s st)) (ts ++ [snd (resume t s st)]).
Proof.
  unfold step. cbn [tasks state]. rewrite list_lookup_middle by done.
  cbv zeta. f_equal. rewrite insert_app_r_alt by lia. by rewrite Nat.sub_diag.
Qed.

Lemma run_cons sys ev evs : run sys (ev :: evs) = run (step sys ev) evs.
Proof. done. Qed.

Lemma run_nil sys : run sys [] = sys.
Proof. done. Qed.

(** X14: [abortDiscographyFetch] called while the overview request of a run
    is in flight discards the run.  Whatever the request then settles with,
    the call resolves with an empty list, no page is requested, the caches
    and [currentReleases] are as before the call, and the module is back at
    rest. *)
Theorem abort_before_overview_discards_the_run
    (sys : System) (a : string) (s : Settled) :
  reachable sys ->
  cosmosAvailable = true ->
  discographyReleaseCache (state sys) !! a = None ->
  readable s ->
  let sys' := run sys (abort_before_overview (length (tasks sys)) a s) in
  tasks sys' = tasks sys ++ [FetchResolved []]
  /\ requests (effects (state sys')) = S (requests (effects (state sys)))
  /\ discographyReleaseCache (state sys') = discographyReleaseCache (state sys)
  /\ albumCache (state sys') = albumCache (state sys)
  /\ currentReleases (state sys') = currentReleases (state sys)
  /\ at_rest (state sys').
Proof.
  intros Hr Hc Hmiss Hs. unfold abort_before_overview.
  rewrite run_cons, (uncached_call_starts_pipeline sys a Hr Hc Hmiss).
  rewrite run_cons. cbn [step state tasks].
  rewrite run_cons, step_settle_last, run_cons, step_settle_last, run_nil.
  cbn [state tasks]. unfold at_rest.
  destruct s as [v|e]; cbn [resume fst snd].
  - unfold_controller. evaluate. count_effects. repeat split; lia.
  - cbn in Hs. unfold fetchArtistView_settled.
    destruct (isRateLimitError e) as [[]|]; [| |done].
    all: unfold_controller; evaluate; count_effects; repeat split; lia.
Qed.

Lemma step_abort st ts :
  step (mkSystem st ts) CallAbort = mkSystem (abortDiscographyFetch st) ts.
Proof. done. Qed.

Lemma size_of_nonempty (m : ReleasesMap) : m <> [] -> (size m =? 0)%nat = false.
Proof. by destruct m. Qed.

#[local] Arguments run : simpl never.
#[local] Arguments step : simpl never.

(** One settlement of the newest task. *)
Ltac settle_last :=
  rewrite run_cons, step_settle_last; cbn [resume fst snd].

(** X15: [abortDiscographyFetch] called while the first album page of a run
    is in flight does not discard the run.  When the dates of the merged
    releases are strings that the host collates as code units order them, no
    further page is requested, but the releases of the overview and of that
    page are sorted by descending date, stored in [currentReleases] and in
    the cache, and returned; the change to [DONE] overwrites [ABORTED], and
    the module ends at rest. *)
Theorem abort_while_paging_keeps_the_run
    (sys : System) (a : string) (overview page : json) (m m' : ReleasesMap) :
  reachable sys ->
  cosmosAvailable = true ->
  discographyReleaseCache (state sys) !! a = None ->
  truthy overview = true ->
  collectReleasesDeep overview [] 0 = Ok m ->
  add_page_items (page_items page) m = (m', true) ->
  m' <> [] ->
  dates_are_strings (map snd m') ->
  collation_is_lexicographic (map snd m') ->
  let sys' := run sys (abort_while_paging (length (tasks sys)) a overview page) in
  exists sorted,
    Permutation (map snd m') sorted
    /\ StronglySorted date_ge sorted
    /\ tasks sys' = tasks sys ++ [FetchResolved sorted]
    /\ discographyReleaseCache (state sys')
       = <[a := sorted]> (discographyReleaseCache (state sys))
    /\ currentReleases (state sys') = sorted
    /\ requests (effects (state sys')) = S (S (requests (effects (state sys))))
    /\ at_rest (state sys').
Proof.
  intros Hr Hc Hmiss Htr Hcol Hadd Hne Hstr Hlex.
  change (map snd m') with (values m') in *.
  destruct (array_sort_spec _ Hstr Hlex) as (sorted & Hsort & Hperm & Hsorted & _).
  cbv zeta. exists sorted. split; [exact Hperm|]. split; [exact Hsorted|].
  unfold abort_while_paging.
  pose proof (size_of_nonempty m' Hne) as Hsize.
  rewrite run_cons, (uncached_call_starts_pipeline sys a Hr Hc Hmiss).
  settle_last. unfold fetchArtistView_settled. evaluate.
  settle_last. unfold after_artistView. rewrite Htr. evaluate. rewrite Hcol.
  unfold fetchArtistAlbumsPaged, paged_loop. rewrite Hc. evaluate.
  rewrite run_cons, step_abort. unfold abortDiscographyFetch. evaluate.
  settle_last. unfold page_settled.
  destruct (length (page_items page) =? 0)%nat eqn:Hlen.
  - apply Nat.eqb_eq, length_zero_iff_nil in Hlen. rewrite Hlen in Hadd.
    change (add_page_items [] m) with (m, true) in Hadd. injection Hadd as ->.
    cbn [fst snd]. settle_last. unfold after_paged. rewrite Hsize, Hsort.
    unfold pipeline_finally. evaluate.
    settle_last. rewrite run_nil. evaluate. unfold at_rest. count_effects.
    repeat split; lia.
  - rewrite Hadd. destruct (truthy (get page "next")); evaluate.
    + settle_last. unfold paged_loop. evaluate.
      settle_last. unfold after_paged. rewrite Hsize, Hsort.
      unfold pipeline_finally. evaluate.
      rewrite run_nil. evaluate. unfold at_rest. count_effects.
      repeat split; lia.
    + settle_last. unfold after_paged. rewrite Hsize, Hsort.
      unfold pipeline_finally. evaluate.
      settle_last. rewrite run_nil. evaluate. unfold at_rest. count_effects.
      repeat split; lia.
Qed.





(** ** Hydration *)

Lemma step_hydrate_uncached sys a :
  albumCache (state sys) !! a = None ->
  step sys (CallHydrate a)
  = mkSystem (emit (Delay 30000) (state sys)) (tasks sys ++ [AwaitHydrateDelay a]).
Proof. intros Hmiss. unfold step, spawn, hydrateAlbumDetails. by rewrite Hmiss. Qed.

(** X18: a hydration that succeeds is answered from the cache from then on.
    The first call waits 30 s, sends one request, stores the album as it
    came and resolves with its projection; the next call for the album
    settles at once, without delay or request, with the same release except
    that its [uri] is always built from the album id, whatever [uri] the
    album carries. *)
Theorem hydrated_album_is_served_from_the_cache
    (sys : System) (a : string) (album : json) :
  cosmosAvailable = true ->
  albumCache (state sys) !! a = None ->
  truthy album = true ->
  to_string (get album "name") <> Throw ->
  let sys' := call_alone sys (CallHydrate a) [tick; Fulfilled album] in
  let fetched := fetched_release a album in
  let cached := cached_release a album in
  tasks sys' = tasks sys ++ [HydrateSettled (Ok (Some fetched))]
  /\ albumCache (state sys') = <[a := album]> (albumCache (state sys))
  /\ effects (state sys')
     = effects (state sys) ++ [Delay 30000; CosmosGet (album_url a)]
  /\ step sys' (CallHydrate a)
     = mkSystem (state sys') (tasks sys' ++ [HydrateSettled (Ok (Some cached))])
  /\ cached = {| id := id fetched; name := name fetched;
                 release_date := release_date fetched;
                 album_type := album_type fetched;
                 uri := album_uri a;
                 imageUrl := imageUrl fetched |}
  /\ uri fetched = get album "uri" ||| album_uri a.
Proof.
  intros Hc Hmiss Htr Hname sys' fetched cached.
  assert (Hrun : sys' = mkSystem
            (with_albumCache (<[a := album]> (albumCache (state sys)))
               (emit (CosmosGet (album_url a)) (emit (Delay 30000) (state sys))))
            (tasks sys ++ [HydrateSettled (Ok (Some fetched))])).
  { subst sys'. unfold call_alone, settle_script. cbn [map].
    rewrite (step_hydrate_uncached sys a Hmiss).
    settle_last. unfold hydrate_delayed. rewrite Hc. evaluate.
    settle_last. rewrite run_nil. unfold hydrate_settled. rewrite Htr.
    evaluate. by destruct (to_string (get album "name")). }
  rewrite Hrun. cbn [state tasks]. repeat split.
  - cbn. by rewrite <- app_assoc.
  - unfold step, spawn, hydrateAlbumDetails. cbn [state tasks albumCache with_albumCache].
    rewrite lookup_insert_eq. by destruct album.
Qed.


(** X20: hydration reads and writes the album cache only.  A step of
    [hydrateAlbumDetails] gives the same outcome and the same album cache in
    any two states that agree on the album cache, and it leaves the phase,
    [activeArtistId], the per-artist cache and [currentReleases] alone: an
    abort, or a discography run in any phase, does not stop or change a
    hydration. *)
Theorem hydration_depends_on_the_album_cache_only
    (t : Task) (s : Settled) (st1 st2 : State) :
  is_fetch_task t = false ->
  albumCache st1 = albumCache st2 ->
  snd (resume t s st1) = snd (resume t s st2)
  /\ albumCache (fst (resume t s st1)) = albumCache (fst (resume t s st2))
  /\ phase (fst (resume t s st1)) = phase st1
  /\ activeArtistId (fst (resume t s st1)) = activeArtistId st1
  /\ discographyReleaseCache (fst (resume t s st1)) = discographyReleaseCache st1
  /\ currentReleases (fst (resume t s st1)) = currentReleases st1
  /\ forall a,
       snd (hydrateAlbumDetails a st1) = snd (hydrateAlbumDetails a st2)
       /\ albumCache (fst (hydrateAlbumDetails a st1)) = albumCache st1
       /\ phase (fst (hydrateAlbumDetails a st1)) = phase st1.
Proof.
  intros Hk Hcache.
  assert (Hcall : forall a,
             snd (hydrateAlbumDetails a st1) = snd (hydrateAlbumDetails a st2)
             /\ albumCache (fst (hydrateAlbumDetails a st1)) = albumCache st1
             /\ phase (fst (hydrateAlbumDetails a st1)) = phase st1).
  { intros a. unfold hydrateAlbumDetails. rewrite <- Hcache.
    by destruct (albumCache st1 !! a) as [[]|]. }
  destruct t; try discriminate Hk; cbn [resume fst snd].
  - unfold hydrate_delayed. by destruct (negb cosmosAvailable).
  - unfold hydrate_settled. destruct s as [album|e].
    + destruct (truthy album); [destruct (to_string (get album "name"))|]; cbn.
      all: repeat split; try done; try apply Hcall.
      all: by rewrite Hcache.
    + by destruct (isRateLimitError e).
  - done.
Qed.

Lemma step_settle_at st ts t rest s :
  step (mkSystem st (ts ++ t :: rest)) (Settle (length ts) s)
  = mkSystem (fst (resume t s st)) (ts ++ snd (resume t s st) :: rest).
Proof.
  unfold step. cbn [tasks state]. rewrite list_lookup_middle by done.
  cbv zeta. f_equal. rewrite insert_app_r_alt by lia. by rewrite Nat.sub_diag.
Qed.

Lemma step_settle_second st ts t1 t2 s :
  step (mkSystem st (ts ++ [t1; t2])) (Settle (S (length ts)) s)
  = mkSystem (fst (resume t2 s st)) (ts ++ [t1; snd (resume t2 s st)]).
Proof.
  pose proof (step_settle_at st (ts ++ [t1]) t2 [] s) as H.
  rewrite length_app, Nat.add_1_r, <- !app_assoc in H. exact H.
Qed.

(** X21: hydrations in flight are not shared.  Two calls for the same album
    made before the first has got its answer each wait 30 s and each send
    the request. *)
Theorem pending_hydrations_are_not_shared (sys : System) (a : string) :
  cosmosAvailable = true ->
  albumCache (state sys) !! a = None ->
  let sys' := run sys (hydrate_twice (length (tasks sys)) a) in
  tasks sys' = tasks sys ++ [AwaitHydrateGet a; AwaitHydrateGet a]
  /\ effects (state sys')
     = effects (state sys)
       ++ [Delay 30000; Delay 30000; CosmosGet (album_url a); CosmosGet (album_url a)].
Proof.
  intros Hc Hmiss. unfold hydrate_twice.
  rewrite run_cons, (step_hydrate_uncached sys a Hmiss).
  rewrite run_cons, step_hydrate_uncached by done. cbn [state tasks].
  rewrite <- app_assoc. cbn [app].
  rewrite run_cons, step_settle_at. cbn [resume fst snd].
  unfold hydrate_delayed. rewrite Hc. evaluate.
  rewrite run_cons, step_settle_second, run_nil. cbn [resume fst snd].
  unfold hydrate_delayed. rewrite Hc. evaluate.
  rewrite <- !app_assoc. by split.
Qed.

(** ** [abortDiscographyFetch] between runs *)

(** X22: [abortDiscographyFetch] is harmless when no run is in flight, and
    is not sticky.  In a reachable state without a pending call of
    [fetchDiscographyForArtist] it changes nothing at all; and whenever it is
    called, the next call for an artist that is not cached starts a run as
    usual, in phase [ARTISTVIEW]. *)
Theorem abort_between_runs_is_harmless (sys : System) :
  reachable sys ->
  (no_pipeline_in_flight sys -> step sys CallAbort = sys)
  /\ (forall a,
        cosmosAvailable = true ->
        discographyReleaseCache (state sys) !! a = None ->
        let sys' := run sys [CallAbort; CallFetch a] in
        tasks sys' = tasks sys ++ [AwaitArtistViewGet a]
        /\ phase (state sys') = ARTISTVIEW).
Proof.
  intros Hr. split.
  - intros Hidle. destruct (reachable_rest_invariant sys Hr Hidle) as [Hp _].
    destruct sys as [st ts]. rewrite step_abort. cbn in Hp.
    unfold abortDiscographyFetch. rewrite Hp. by evaluate.
  - intros a Hc Hmiss.
    pose proof (reachable_run sys [CallAbort] Hr) as Hr1.
    rewrite run_cons, run_nil in Hr1. rewrite run_cons.
    assert (Hmiss1 : discographyReleaseCache (state (step sys CallAbort)) !! a = None).
    { destruct sys as [st ts]. rewrite step_abort. cbn [state] in *.
      unfold abortDiscographyFetch. by destruct (_ && _). }
    rewrite run_cons, run_nil.
    rewrite (uncached_call_starts_pipeline _ a Hr1 Hc Hmiss1).
    destruct sys as [st ts]. by rewrite step_abort.
Qed.

(** ** [hydrateAlbumsBatch] *)

Lemma aux_resume_settled t now s st :
  aux_settled t = true -> aux_resume t now s st = (st, t).
Proof. by destruct t. Qed.

Lemma aux_resume_batch t now s st :
  batch_position t -> aux_settled t = false ->
  batch_position (snd (aux_resume t now s st))
  /\ (batch_steps_left (snd (aux_resume t now s st)) < batch_steps_left t)%nat.
Proof.
  destruct t; try done; intros [Hb Hi] _; cbn [aux_resume].
  - unfold batch_settled. destruct s as [res|e].
    + destruct (get res "albums"); cbn; split; try done; lia.
    + destruct (isRateLimitError e) as [[]|]; cbn; split; try done; lia.
  - unfold batch_loop. destruct (i + batchSize <? _) eqn:Hlt; cbn; [|split; [done|lia]].
    apply Z.ltb_lt in Hlt.
    destruct (bool_decide _); cbn; [split; [done|lia]|].
    destruct (negb cosmosAvailable); cbn; split; try done; lia.
Qed.

Lemma aux_drive_settles script : forall st t,
  batch_position t -> (batch_steps_left t <= length script)%nat ->
  aux_settled (snd (aux_drive (st, t) script)) = true.
Proof.
  induction script as [|[now s] script IH]; intros st t Hp Hn; simpl in *.
  - destruct t; simpl in *; try done; lia.
  - change (fold_left _ script ?r) with (aux_drive r script).
    destruct (aux_settled t) eqn:St.
    + rewrite (aux_resume_settled _ _ _ _ St). apply IH; [done|].
      destruct t; simpl in *; try done; lia.
    + destruct (aux_resume_batch t now s st Hp St) as [Hp' Hlt].
      destruct (aux_resume t now s st) as [st1 t1]. simpl in *.
      apply IH; [done|lia].
Qed.

(** X23: with a batch size that is an integer of at least one
    [hydrateAlbumsBatch] returns.  In any state, whatever the requests
    settle with, the call has settled after at most two settlements (a
    request and a delay) per album id it was given. *)
Theorem hydrateAlbumsBatch_returns
    (albumIds : list string) (batchSize delayMs : Z) (st : State)
    (script : list (Z * Settled)) :
  1 <= batchSize ->
  (2 * length albumIds <= length script)%nat ->
  aux_settled (snd (aux_drive (hydrateAlbumsBatch albumIds batchSize delayMs st) script))
  = true.
Proof.
  intros Hone Hn. assert (Hb : 0 < batchSize) by lia. unfold hydrateAlbumsBatch.
  set (missing := List.filter _ albumIds).
  assert (Hlen : (length missing <= length albumIds)%nat) by apply List.filter_length_le.
  destruct (assertPhase [HYDRATING] st).
  2: { apply aux_drive_settles; [done|simpl; lia]. }
  destruct (length missing =? 0)%nat.
  { apply aux_drive_settles; [done|simpl; lia]. }
  unfold batch_loop. destruct (0 <? _) eqn:Hlt.
  2: { apply aux_drive_settles; [done|simpl; lia]. }
  apply Z.ltb_lt in Hlt.
  destruct (bool_decide _); [apply aux_drive_settles; [done|simpl; lia]|].
  destruct (negb cosmosAvailable); apply aux_drive_settles; try done; simpl; lia.
Qed.

Lemma aux_resume_stuck t now s st :
  cosmosAvailable = true ->
  batch_stuck t -> phase st = HYDRATING -> batch_response (now, s) ->
  batch_stuck (snd (aux_resume t now s st))
  /\ phase (fst (aux_resume t now s st)) = HYDRATING.
Proof.
  intros Hc. destruct t; try done; intros (Hb & Hi & Hm) Hp Hs; cbn [aux_resume].
  - unfold batch_settled. destruct s as [res|e]; [|done].
    unfold batch_response in Hs. cbn [snd] in Hs.
    by destruct (get res "albums").
  - unfold batch_loop.
    assert (Hlt : (i + batchSize <? Z.of_nat (length missing)) = true).
    { apply Z.ltb_lt. destruct missing; [done|]. simpl. lia. }
    rewrite Hlt, Hp, Hc. cbn. repeat split; try done; lia.
Qed.

(** X24: with a batch size of zero or less [hydrateAlbumsBatch] never
    returns.  Called in phase [HYDRATING] with an album that is not yet
    cached, and answered by well-formed responses, it is still waiting after
    any number of them: the loop counter of line 278 does not advance. *)
Theorem hydrateAlbumsBatch_without_batch_size_never_returns
    (albumIds : list string) (batchSize delayMs : Z) (st : State)
    (script : list (Z * Settled)) :
  cosmosAvailable = true ->
  batchSize <= 0 ->
  phase st = HYDRATING ->
  (exists a, In a albumIds /\ albumCache st !! a = None) ->
  Forall batch_response script ->
  aux_settled (snd (aux_drive (hydrateAlbumsBatch albumIds batchSize delayMs st) script))
  = false.
Proof.
  intros Hc Hb Hp (a & Hin & Hmiss) Hscript.
  assert (Hgen : forall st t, batch_stuck t -> phase st = HYDRATING ->
                              aux_settled (snd (aux_drive (st, t) script)) = false).
  { clear st Hp Hmiss. induction Hscript as [|[now s] script Hs _ IH]; intros st t Ht Hp.
    - by destruct t.
    - simpl. change (fold_left _ script ?r) with (aux_drive r script).
      destruct (aux_resume_stuck t now s st Hc Ht Hp Hs) as [Ht' Hp'].
      destruct (aux_resume t now s st) as [st1 t1]. by apply IH. }
  unfold hydrateAlbumsBatch, assertPhase. rewrite Hp.
  rewrite bool_decide_eq_true_2 by constructor.
  set (missing := List.filter _ albumIds).
  assert (Hne : missing <> []).
  { assert (Ha : In a missing).
    { apply List.filter_In. split; [done|]. rewrite Hmiss.
      rewrite bool_decide_eq_false_2; [done|]. by intros [? ?]. }
    by destruct missing. }
  destruct missing as [|x rest] eqn:E; [done|].
  cbn [length Nat.eqb]. unfold batch_loop. rewrite Hp, Hc.
  change (0 <? Z.of_nat (length (x :: rest))) with true. cbn [negb].
  rewrite bool_decide_eq_false_2 by done.
  apply Hgen; [|done]. repeat split; try done; lia.
Qed.

End Host.


(** * Concrete runs

    The host of these runs has [CosmosAsync.get] and collates by code
    units. *)

Lemma lex_compare_collation l : collation_is_lexicographic lex_compare l.
Proof.
  intros a b _ _. unfold lex_compare.
  by destruct (String.compare (date_of a) (date_of b)).
Qed.

(** The spec's sort example: 2020-01-01, 2022-06-15 and the empty date come
    out as 2022-06-15, 2020-01-01, empty. *)
Example sort_three_dates :
  array_sort (compare_releases lex_compare) (values dated_map)
  = Ok [sample_release "r2" "Second" "2022-06-15";
        sample_release "r1" "First" "2020-01-01";
        sample_release "r3" "Third" ""].
Proof. reflexivity. Qed.

(** Two releases whose dates are not strings cannot be compared. *)
Example sort_dated_objects_throws :
  exists m,
    collectReleasesDeep overview_B [] 0 = Ok m
    /\ length m = 2%nat
    /\ array_sort (compare_releases lex_compare) (values m) = Throw.
Proof. eexists. vm_compute. repeat split. Qed.

(** The same id twice, the second time one level further down: the first
    release seen is the one kept.  A page that brings the id again, and a
    new one, only adds the new one. *)
Example first_seen_release_is_kept :
  let first := JObj [("id", JStr "1"); ("name", JStr "First"); ("type", JStr "album")] in
  let second := JObj [("id", JStr "1"); ("name", JStr "Second"); ("type", JStr "album")] in
  let other := JObj [("id", JStr "2"); ("name", JStr "Other"); ("type", JStr "single")] in
  let kept := [(JStr "1", sample_release "1" "First" "")] in
  collectReleasesDeep (JArr [first; JObj [("nested", second)]]) [] 0 = Ok kept
  /\ add_page_items [second; other] kept
     = (kept ++ [(JStr "2",
                  {| id := JStr "2"; name := JStr "Other"; release_date := JStr "";
                     album_type := JStr "single"; uri := JStr "spotify:album:2";
                     imageUrl := JStr "" |})],
        true).
Proof. vm_compute. split; reflexivity. Qed.

(** An album ten arrays down is collected, one eleven arrays down is not. *)
Example ceiling_is_ten_levels :
  collectReleasesDeep (wrapped 10 (sample_album "a1" "One" "2020-01-01")) [] 0
  = Ok [(JStr "a1", sample_release "a1" "One" "2020-01-01")]
  /\ collectReleasesDeep (wrapped 11 (sample_album "a1" "One" "2020-01-01")) [] 0
     = Ok [].
Proof. vm_compute. split; reflexivity. Qed.

(** C1 at a failing schedule: "A" is requested, then "B" while the request
    for "A" is in flight, then the answers for "A" arrive.  The call for "B"
    finds [activeArtistId] empty, so nothing is aborted: the only phase
    changes are the two pipeline starts and the end of the run for "A", and
    that run stores its list under "A". *)
Theorem supersede_neither_aborts_nor_discards :
  let sys2 := run true lex_compare initial_system [CallFetch "A"; CallFetch "B"] in
  let sys6 := run true lex_compare sys2 finish_task_0 in
  tasks sys2 = [AwaitArtistViewGet "A"; AwaitArtistViewGet "B"]
  /\ phase (state sys2) = ARTISTVIEW
  /\ activeArtistId (state sys2) = None
  /\ effects (state sys6)
     = [PhaseChange IDLE ARTISTVIEW; CosmosGet (artistview_url "A");
        PhaseChange IDLE ARTISTVIEW; CosmosGet (artistview_url "B");
        CosmosGet (albums_url "A" 50 0); PhaseChange ARTISTVIEW DONE]
  /\ tasks sys6 = [FetchResolved [sample_release "a1" "One" "2020-01-01"];
                   AwaitArtistViewGet "B"]
  /\ discographyReleaseCache (state sys6) !! "A"
     = Some [sample_release "a1" "One" "2020-01-01"].
Proof. vm_compute. repeat split. Qed.

(** Were [activeArtistId] still "A" when "B" is called (a state the module
    never reaches), the supersede guard would log the change to [ABORTED],
    and the start of the new pipeline would at once overwrite it: the run for
    "A" would resume under [ARTISTVIEW] all the same. *)
Example abort_is_overwritten_by_next_start :
  let st := with_activeArtistId (Some "A") (transitionPhase ARTISTVIEW initial_state) in
  let r := fetchDiscographyForArtist true "B" st in
  phase (fst r) = ARTISTVIEW
  /\ effects (fst r)
     = [PhaseChange IDLE ARTISTVIEW; PhaseChange ARTISTVIEW ABORTED;
        PhaseChange IDLE ARTISTVIEW; CosmosGet (artistview_url "B")].
Proof. vm_compute. repeat split. Qed.

(** C2 at a failing schedule: "A" is requested twice back to back.  The
    second call does not settle with [currentReleases]; it starts a second
    pipeline and issues a second overview request. *)
Theorem second_call_starts_second_pipeline :
  let sys := run true lex_compare initial_system [CallFetch "A"; CallFetch "A"] in
  tasks sys = [AwaitArtistViewGet "A"; AwaitArtistViewGet "A"]
  /\ effects (state sys)
     = [PhaseChange IDLE ARTISTVIEW; CosmosGet (artistview_url "A");
        PhaseChange IDLE ARTISTVIEW; CosmosGet (artistview_url "A")].
Proof. vm_compute. repeat split. Qed.

(** C3 at a failing input: a run for "A" succeeds, then a run for "B" gets
    an overview whose release dates are objects.  The comparator throws, the
    catch block runs, and the call for "B" settles with the list of "A"
    instead of an empty list; nothing is cached for "B". *)
Theorem failed_run_returns_stale_releases :
  let sys := run true lex_compare initial_system (alone_A ++ then_alone_B) in
  tasks sys = [FetchResolved [sample_release "a1" "One" "2020-01-01"];
               FetchResolved [sample_release "a1" "One" "2020-01-01"]]
  /\ discographyReleaseCache (state sys) !! "B" = None
  /\ phase (state sys) = IDLE
  /\ effects (state sys)
     = [PhaseChange IDLE ARTISTVIEW; CosmosGet (artistview_url "A");
        CosmosGet (albums_url "A" 50 0); PhaseChange ARTISTVIEW DONE;
        PhaseChange IDLE ARTISTVIEW; CosmosGet (artistview_url "B");
        CosmosGet (albums_url "B" 50 0); PhaseChange ARTISTVIEW ABORTED].
Proof. vm_compute. repeat split. Qed.

(** C4, the part that fails: the first album page of a run for "A" is
    rejected with a rate-limit error.  Paging stops, but the phase is still
    [ARTISTVIEW], no change to [ABORTED] was logged, and the run goes on to
    complete. *)
Lemma paging_rate_limit_does_not_abort :
  let sys := run true lex_compare initial_system rate_limited_page_A in
  isRateLimitError rate_limit_error = Ok true
  /\ tasks sys = [AwaitPaged "A" [(JStr "a1", sample_release "a1" "One" "2020-01-01")]
                             (Ok tt)]
  /\ phase (state sys) <> ABORTED
  /\ effects (state sys)
     = [PhaseChange IDLE ARTISTVIEW; CosmosGet (artistview_url "A");
        CosmosGet (albums_url "A" 50 0)]
  /\ tasks (step true lex_compare sys (Settle 0 tick))
     = [FetchResolved [sample_release "a1" "One" "2020-01-01"]].
Proof. vm_compute. repeat split; discriminate. Qed.

(** C6, where it fails: on a host whose collation ignores case, a run for
    an artist with the dates "a" and "B" succeeds and returns "B" before
    "a", although "a" is the lexicographically greater string: the list is
    in the order of [localeCompare], not in descending code-unit order. *)
Lemma collation_decides_the_order :
  let overview := JObj [("releases", JArr [sample_album "r1" "First" "a";
                                           sample_album "r2" "Second" "B"])] in
  let returned := [sample_release "r2" "Second" "B"; sample_release "r1" "First" "a"] in
  let sys := run true caseless_compare initial_system
                 [CallFetch "A"; Settle 0 (Fulfilled overview); Settle 0 tick;
                  Settle 0 (Fulfilled empty_page); Settle 0 tick] in
  tasks sys = [FetchResolved returned]
  /\ discographyReleaseCache (state sys) !! "A" = Some returned
  /\ String.compare "B" "a" = Lt
  /\ ~ StronglySorted date_ge returned.
Proof.
  intros overview returned sys.
  split; [vm_compute; reflexivity|]. split; [vm_compute; reflexivity|].
  split; [reflexivity|].
  intros Hs. inversion Hs as [|r l _ Hall]; subst.
  inversion Hall as [|r' l' Hge _]; subst. by apply Hge.
Qed.

(** ** Instances of the general theorems *)

(** A page without items but with a [next] link ends the paged fetch. *)
Lemma paging_stops_early_witness :
  page_items empty_page_with_next = []
  /\ page_settled "A" dated_map 2 0 0 (Fulfilled empty_page_with_next) initial_state
     = (initial_state, AwaitPaged "A" dated_map (Ok tt)).
Proof.
  split; [reflexivity|].
  apply (proj1 (paging_stops_early_and_keeps_releases "A" dated_map 2 0 0 initial_state)).
  reflexivity.
Defined.

(** After a run for "A" has completed, a further call for "A" is served
    from the cache. *)
Lemma cached_artist_witness :
  let sys := run true lex_compare initial_system alone_A in
  discographyReleaseCache (state sys) !! "A"
    = Some [sample_release "a1" "One" "2020-01-01"]
  /\ step true lex_compare sys (CallFetch "A")
     = mkSystem (state sys)
         (tasks sys ++ [FetchResolved [sample_release "a1" "One" "2020-01-01"]]).
Proof.
  intros sys. split; [vm_compute; reflexivity|].
  apply cached_artist_returns_cached_list.
  - exists alone_A. reflexivity.
  - vm_compute. reflexivity.
Defined.

(** The spec's three dates come out as 2022-06-15, 2020-01-01, empty. *)
Lemma sorted_run_witness :
  dated_map <> []
  /\ dates_are_strings (map snd dated_map)
  /\ collation_is_lexicographic lex_compare (map snd dated_map)
  /\ exists sorted st',
       after_paged lex_compare "A" dated_map (Ok tt) initial_state
       = (st', FetchResolved sorted)
       /\ StronglySorted date_ge sorted
       /\ Permutation (map snd dated_map) sorted.
Proof.
  assert (H1 : dated_map <> []) by discriminate.
  assert (H2 : dates_are_strings (map snd dated_map)) by (repeat constructor).
  assert (H3 : collation_is_lexicographic lex_compare (map snd dated_map))
    by apply lex_compare_collation.
  split; [exact H1|]. split; [exact H2|]. split; [exact H3|].
  destruct (successful_run_sorted_descending_stable lex_compare "A" dated_map
              initial_state H1 H2 H3)
    as (sorted & st' & E & _ & _ & Hperm & Hsorted & _).
  exists sorted, st'. split; [exact E|]. split; [exact Hsorted|exact Hperm].
Defined.

(** A track with an identifier and a name is rejected on its type. *)
Lemma normalize_rejects_witness :
  normalizeReleaseItem
    (JObj [("id", JStr "x"); ("name", JStr "N"); ("uri", JStr "spotify:track:x");
           ("type", JStr "Track")])
  = Ok None.
Proof.
  apply (proj1 (proj2 (proj2 normalizeReleaseItem_rejects)) _ "track").
  - reflexivity.
  - simpl. intuition discriminate.
  - reflexivity.
Defined.


(** After album "x1" has been hydrated, a further hydration is served from
    the cache, with the fields of the detail that was stored. *)
Lemma cached_album_witness :
  let sys := run true lex_compare initial_system hydrate_x1 in
  albumCache (state sys) !! "x1" = Some album_detail
  /\ step true lex_compare sys (CallHydrate "x1")
     = mkSystem (state sys)
         (tasks sys
          ++ [HydrateSettled
                (Ok (Some {| id := JStr "x1"; name := JStr "Detail";
                             release_date := JStr "2021-03-04";
                             album_type := JStr "single";
                             uri := JStr "spotify:album:x1";
                             imageUrl := JStr "" |}))]).
Proof.
  intros sys. split; [vm_compute; reflexivity|].
  apply (cached_album_hydrates_without_fetch_or_delay true lex_compare sys "x1"
           album_detail).
  - exists hydrate_x1. reflexivity.
  - vm_compute. reflexivity.
Defined.

(** A first call, alone, from the initial state. *)
Lemma call_alone_witness :
  let script := [Fulfilled overview_A; tick; Fulfilled empty_page; tick; tick; tick; tick] in
  let sys' := call_alone true lex_compare initial_system (CallFetch "A") script in
  phase (state sys') = IDLE /\ activeArtistId (state sys') = None.
Proof.
  intros script sys'.
  destruct (call_alone_ends_idle true lex_compare initial_system "A" script)
    as [Hrest Hsettles].
  - exists []. reflexivity.
  - constructor.
  - destruct Hsettles as [releases Hr]; [simpl; lia|].
    exact (Hrest releases Hr).
Defined.

(** ** Instances of the further properties *)

(** The overview's album is accepted as the release the samples expect. *)
Lemma normalize_accepted_witness :
  normalizeReleaseItem (sample_album "a1" "One" "2020-01-01")
  = Ok (Some (sample_release "a1" "One" "2020-01-01"))
  /\ well_formed_release (sample_release "a1" "One" "2020-01-01").
Proof.
  split; [reflexivity|].
  apply (normalizeReleaseItem_accepted_release (sample_album "a1" "One" "2020-01-01")).
  reflexivity.
Defined.

(** An item without an id takes the last segment of its uri. *)
Lemma id_from_uri_witness :
  exists r,
    normalizeReleaseItem
      (JObj [("name", JStr "N"); ("uri", JStr "spotify:album:z9"); ("type", JStr "album")])
    = Ok (Some r)
    /\ id r = JStr "z9" /\ uri r = JStr "spotify:album:z9".
Proof.
  apply (proj1 (identifier_and_uri_stand_in_for_each_other
                  (JObj [("name", JStr "N"); ("uri", JStr "spotify:album:z9");
                         ("type", JStr "album")])
                  "album" eq_refl eq_refl) "spotify:album:z9").
  - reflexivity.
  - reflexivity.
  - reflexivity.
  - vm_compute. discriminate.
  - right. reflexivity.
Defined.

(** An array is not a release, even one that holds an album. *)
Lemma array_is_no_release_witness :
  normalizeReleaseItem (JArr [sample_album "a1" "One" "2020-01-01"]) = Ok None.
Proof.
  apply normalizeReleaseItem_rejects_non_objects. intros fields. discriminate.
Defined.

(** A rejection with a bare string is not a rate limit. *)
Lemma string_is_no_rate_limit_witness :
  isRateLimitError (JStr "429 rate limit") = Ok false.
Proof.
  apply isRateLimitError_ignores_non_objects. intros fields. discriminate.
Defined.

(** The string "429" under [status] hides the number 429 under
    [statusCode]. *)
Lemma status_string_witness :
  isRateLimitError
    (JObj [("status", JStr "429"); ("statusCode", JNum 429); ("message", JStr "slow")])
  = Ok false.
Proof.
  apply (proj1 (isRateLimitError_first_status_decides
                  (JObj [("status", JStr "429"); ("statusCode", JNum 429);
                         ("message", JStr "slow")])
                  "slow" eq_refl eq_refl eq_refl)).
  - reflexivity.
  - simpl. discriminate.
Defined.

(** The three dated releases are sorted without error under a collation
    that ignores case as well. *)
Lemma string_dates_witness :
  exists out,
    array_sort (compare_releases caseless_compare) (map snd dated_map) = Ok out
    /\ Permutation (map snd dated_map) out.
Proof.
  destruct (proj2 (string_dates_never_fail_the_sort caseless_compare (map snd dated_map)
                     ltac:(repeat constructor)))
    as (out & Hs & Hp & _).
  exists out. split; [exact Hs|exact Hp].
Defined.

(** Two releases dated by an object cannot be sorted. *)
Lemma sort_throws_witness :
  let dated y := {| id := JStr "b"; name := JStr "B"; release_date := JObj [("year", JNum y)];
                    album_type := JStr "album"; uri := JStr "spotify:album:b";
                    imageUrl := JStr "" |} in
  array_sort (compare_releases lex_compare) [dated 2019; dated 2021] = Throw.
Proof.
  intros dated. apply array_sort_throws_without_string_dates.
  - simpl. lia.
  - repeat constructor.
Defined.

(** The effects of a first run for "A". *)
Lemma expected_effects_witness :
  Forall expected_effect (effects (state (run true lex_compare initial_system alone_A))).
Proof.
  apply (effects_are_the_expected_ones true lex_compare).
  exists alone_A. reflexivity.
Defined.

(** While the overview of "A" is in flight the phase is [ARTISTVIEW], and
    [cooldown] would throw. *)
Lemma observable_phase_witness :
  let sys := run true lex_compare initial_system [CallFetch "A"] in
  phase (state sys) = ARTISTVIEW
  /\ cooldown 0 0 (state sys) = (state sys, CooldownSettled Throw).
Proof.
  intros sys. split; [reflexivity|].
  apply (proj1 (proj2 (only_three_phases_are_observable true lex_compare sys
                         (ex_intro _ [CallFetch "A"] eq_refl)))).
Defined.

(** The list cached for "A" after its run. *)
Lemma cached_list_witness :
  let sys := run true lex_compare initial_system alone_A in
  let l := [sample_release "a1" "One" "2020-01-01"] in
  discographyReleaseCache (state sys) !! "A" = Some l
  /\ l <> [] /\ Forall well_formed_release l /\ ids_distinct l.
Proof.
  intros sys l.
  assert (Hc : discographyReleaseCache (state sys) !! "A" = Some l)
    by (vm_compute; reflexivity).
  split; [exact Hc|].
  exact (proj1 (proj2 (returned_and_cached_lists_are_well_formed true lex_compare sys
                         (ex_intro _ alone_A eq_refl))) "A" l Hc).
Defined.

(** "A" stays cached while a run for "B" fails. *)
Lemma cache_persists_witness :
  let sys := run true lex_compare initial_system alone_A in
  let sys' := run true lex_compare sys then_alone_B in
  exists l, l <> []
    /\ step true lex_compare sys' (CallFetch "A")
       = mkSystem (state sys') (tasks sys' ++ [FetchResolved l]).
Proof.
  intros sys sys'.
  apply (proj1 (cached_entries_are_never_dropped true lex_compare sys then_alone_B
                  (ex_intro _ alone_A eq_refl)) "A").
  vm_compute. eexists. reflexivity.
Defined.

(** A first call for "A", aborted before a rate-limited overview comes
    back. *)
Lemma abort_before_overview_witness :
  let sys' := run true lex_compare initial_system
                  (abort_before_overview 0 "A" (Rejected rate_limit_error)) in
  tasks sys' = [FetchResolved []]
  /\ discographyReleaseCache (state sys') = ∅.
Proof.
  intros sys'.
  destruct (abort_before_overview_discards_the_run true lex_compare initial_system "A"
              (Rejected rate_limit_error)) as (H1 & _ & H3 & _).
  - exists []. reflexivity.
  - reflexivity.
  - reflexivity.
  - vm_compute. discriminate.
  - split; [exact H1|exact H3].
Defined.

(** A first call for "A", aborted while its first page is in flight; the
    page brings a second album and a [next] link. *)
Lemma abort_while_paging_witness :
  let page := JObj [("items", JArr [sample_album "a2" "Two" "2021-05-05"]);
                    ("next", JStr "https://api.spotify.com/v1/next")] in
  let sys' := run true lex_compare initial_system
                  (abort_while_paging 0 "A" overview_A page) in
  exists sorted,
    StronglySorted date_ge sorted
    /\ tasks sys' = [FetchResolved sorted]
    /\ discographyReleaseCache (state sys') = <["A" := sorted]> ∅.
Proof.
  intros page sys'.
  destruct (abort_while_paging_keeps_the_run true lex_compare initial_system "A"
              overview_A page
              [(JStr "a1", sample_release "a1" "One" "2020-01-01")]
              [(JStr "a1", sample_release "a1" "One" "2020-01-01");
               (JStr "a2", sample_release "a2" "Two" "2021-05-05")])
    as (sorted & _ & H1 & H2 & H3 & _).
  - exists []. reflexivity.
  - reflexivity.
  - reflexivity.
  - reflexivity.
  - reflexivity.
  - reflexivity.
  - discriminate.
  - repeat constructor.
  - apply lex_compare_collation.
  - exists sorted. split; [exact H1|]. split; [exact H2|exact H3].
Defined.



(** Album "x1" hydrated from the initial state. *)
Lemma hydrated_album_witness :
  let sys' := call_alone true lex_compare initial_system (CallHydrate "x1")
                         [tick; Fulfilled album_detail] in
  tasks sys' = [HydrateSettled (Ok (Some (fetched_release "x1" album_detail)))]
  /\ albumCache (state sys') = <["x1" := album_detail]> ∅.
Proof.
  intros sys'.
  destruct (hydrated_album_is_served_from_the_cache true lex_compare initial_system
              "x1" album_detail) as (H1 & H2 & _).
  - reflexivity.
  - reflexivity.
  - reflexivity.
  - vm_compute. discriminate.
  - split; [exact H1|exact H2].
Defined.


(** The answer for "x1" arrives in the initial state and in an aborted
    one. *)
Lemma hydration_under_abort_witness :
  let aborted := abortCurrentWork (transitionPhase ARTISTVIEW initial_state) in
  snd (resume true lex_compare (AwaitHydrateGet "x1") (Fulfilled album_detail) initial_state)
  = snd (resume true lex_compare (AwaitHydrateGet "x1") (Fulfilled album_detail) aborted).
Proof.
  intros aborted.
  apply (hydration_depends_on_the_album_cache_only true lex_compare
           (AwaitHydrateGet "x1") (Fulfilled album_detail) initial_state aborted).
  - reflexivity.
  - reflexivity.
Defined.

(** Album "x1" asked for twice from the initial state. *)
Lemma pending_hydrations_witness :
  let sys' := run true lex_compare initial_system (hydrate_twice 0 "x1") in
  tasks sys' = [AwaitHydrateGet "x1"; AwaitHydrateGet "x1"].
Proof.
  intros sys'.
  apply (pending_hydrations_are_not_shared true lex_compare initial_system "x1").
  - reflexivity.
  - reflexivity.
Defined.

(** An abort after the run for "A" has completed changes nothing; an abort
    while the overview for "A" is in flight does not keep a call for "B"
    from starting its run. *)
Lemma abort_between_runs_witness :
  let rested := run true lex_compare initial_system alone_A in
  let busy := run true lex_compare initial_system [CallFetch "A"] in
  let sys' := run true lex_compare busy [CallAbort; CallFetch "B"] in
  tasks rested = [FetchResolved [sample_release "a1" "One" "2020-01-01"]]
  /\ step true lex_compare rested CallAbort = rested
  /\ phase (state (step true lex_compare busy CallAbort)) = ABORTED
  /\ tasks sys' = [AwaitArtistViewGet "A"; AwaitArtistViewGet "B"]
  /\ phase (state sys') = ARTISTVIEW.
Proof.
  intros rested busy sys'.
  split; [reflexivity|]. split.
  - apply (abort_between_runs_is_harmless true lex_compare rested).
    + exists alone_A. reflexivity.
    + repeat constructor.
  - split; [reflexivity|].
    apply (proj2 (abort_between_runs_is_harmless true lex_compare busy
                    (ex_intro _ [CallFetch "A"] eq_refl)) "B").
    + reflexivity.
    + reflexivity.
Defined.

(** Three albums in batches of two: six settlements are enough. *)
Lemma batch_returns_witness :
  aux_settled
    (snd (aux_drive true
            (hydrateAlbumsBatch true ["x1"; "x2"; "x3"] 2 0 (with_phase HYDRATING initial_state))
            (repeat (0, tick) 6)))
  = true.
Proof.
  apply hydrateAlbumsBatch_returns.
  - lia.
  - simpl. lia.
Defined.

(** The same call with a batch size of zero is still waiting after six
    settlements. *)
Lemma batch_never_returns_witness :
  aux_settled
    (snd (aux_drive true
            (hydrateAlbumsBatch true ["x1"; "x2"; "x3"] 0 0 (with_phase HYDRATING initial_state))
            (repeat (0, tick) 6)))
  = false.
Proof.
  apply hydrateAlbumsBatch_without_batch_size_never_returns.
  - reflexivity.
  - lia.
  - reflexivity.
  - exists "x1". split; [left; reflexivity|reflexivity].
  - repeat constructor.
Defined.
